(** * Pastec image feature extractor: quantization and hit indexing

    A shallow embedding of [imagefeatureextractor.cpp]
    (class [ImageFeatureExtractor]) and the properties of its hit
    pipeline: image validation, 16-bit fixed-point encoding of the
    keypoint geometry, nearest-neighbour look-up, the binary layout of
    the hit file, and the loader of the visual vocabulary.

    Conventions of the embedding.
    - A C++ [float] is an IEEE-754 binary32 number: a [spec_float] of
      the Standard Library with precision 24 and [emax] 128, and the
      arithmetic is [SFdiv], [SFmul] at that format (round to nearest,
      ties to even; no extended intermediate precision).
    - A w-bit unsigned integer is a [Z] with its wrap-around written out.
    - A byte is a [Z] in [0, 256).
    - Collaborators that the file only calls ([imdecode], [SIFT],
      [flann::Index::knnSearch], the client connection, the file system)
      are variables of the section or explicit inputs of the functions. *)

From Stdlib Require Import String Ascii DecimalString DecimalN DecimalPos.
From Stdlib Require Import ZArith List Bool Lia QArith Qround Qabs Lqa SpecFloat.
Import ListNotations.

Local Open Scope Z_scope.

(* ------------------------------------------------------------------ *)
(** ** Machine integers and bytes *)

Abbreviation byte := Z (only parsing).

Definition to_u32 (v : Z) : Z := v mod 2 ^ 32.
Definition to_u16 (v : Z) : Z := v mod 2 ^ 16.

(** Byte order of the machine ("native byte order" of the file formats). *)
Inductive byte_order := LittleEndian | BigEndian.

(** The [n] low-order bytes of [v], least significant first. *)
Definition le_bytes (n : nat) (v : Z) : list byte :=
  map (fun i => Z.land (Z.shiftr v (8 * Z.of_nat i)) 255) (seq 0 n).

(** What [ofs.write((char * )&v, n)] puts in the file for an integer [v]. *)
Definition native_bytes (bo : byte_order) (n : nat) (v : Z) : list byte :=
  match bo with
  | LittleEndian => le_bytes n v
  | BigEndian => rev (le_bytes n v)
  end.

(* ------------------------------------------------------------------ *)
(** ** Single-precision floats *)

Module F32.

Definition prec : Z := 24.
Definition emax : Z := 128.

Definition float := spec_float.

Definition div : float -> float -> float := SFdiv prec emax.
Definition mul : float -> float -> float := SFmul prec emax.

(** Conversion of an integer to [float] (exact below 2^24). *)
Definition of_int (n : Z) : float := binary_normalize prec emax n 0 false.

Definition valid (f : float) : bool := valid_binary prec emax f.

Definition is_finite (f : float) : bool :=
  match f with
  | S754_zero _ | S754_finite _ _ _ => true
  | _ => false
  end.

(** Integer part of a finite float, rounded toward zero. *)
Definition trunc (f : float) : Z :=
  match f with
  | S754_finite s m e =>
      cond_Zopp s (if 0 <=? e then Z.pos m * 2 ^ e else Z.pos m / 2 ^ (- e))
  | _ => 0
  end.

(** Conversion [float -> u_int16_t].  C++ truncates toward zero and leaves
    the conversion undefined when the integer part does not fit; the
    model follows x86-64, where the value goes through a 32-bit
    [cvttss2si] (which yields 0x80000000 on NaN, infinities and overflow)
    and the low 16 bits are kept. *)
Definition to_uint16 (f : float) : Z :=
  if is_finite f && (- 2 ^ 31 <=? trunc f) && (trunc f <? 2 ^ 31)
  then to_u16 (trunc f)
  else 0.

(** The rational value of a float (0 for NaN and the infinities). *)
Definition toQ (f : float) : Q :=
  match f with
  | S754_finite s m e =>
      if 0 <=? e then inject_Z (cond_Zopp s (Z.pos m * 2 ^ e))
      else Qmake (cond_Zopp s (Z.pos m)) (Z.to_pos (2 ^ (- e)))
  | _ => 0%Q
  end.

(** The float with mantissa [m] and exponent [e], as the rounding
    function of the library returns it. *)
Definition of_mantissa (m e : Z) : float :=
  match m with
  | Z0 => S754_zero false
  | Zpos p =>
      if e <=? emax - prec then S754_finite false p e else S754_infinity false
  | Zneg _ => S754_nan
  end.

End F32.

(* ------------------------------------------------------------------ *)
(** ** Data model *)

(** Status codes of [dataMessages.h] that [processNewImage] sends. *)
Inductive Reply :=
| OK
| ERROR_GENERIC
| IMAGE_NOT_DECODED
| IMAGE_SIZE_TOO_BIG
| IMAGE_SIZE_TOO_SMALL.

(** [cv::KeyPoint]: position in pixels and orientation in degrees. *)
Record KeyPoint := {
  pt_x : F32.float;
  pt_y : F32.float;
  angle : F32.float
}.

(** One row of the descriptor matrix: 128 floats. *)
Definition Descriptor := list F32.float.

(** [cv::Mat] as far as the extractor looks at it. *)
Record Mat := {
  data : bool;   (* the pixel buffer is not null *)
  cols : Z;
  rows : Z
}.

(** [imdecode] either raises [cv::Exception] or returns a matrix. *)
Inductive DecodeResult :=
| Raised
| Decoded (img : Mat).

Module Hit.
(** Modelled from the spec: the struct [HitForward] is declared in a header
    that is not part of the sources at hand; the fields are the five that
    [processNewImage] assigns, with the widths [writeHit] writes
    (wordId and imageId unsigned 32-bit; angle, x and y unsigned 16-bit). *)
Record HitForward := {
  i_wordId : Z;
  i_imageId : Z;
  i_angle : Z;
  x : Z;
  y : Z
}.
End Hit.
Import Hit.

(* ------------------------------------------------------------------ *)
(** ** Output streams *)

(** A [std::ofstream] on the hit file.  [ofs_device] is the behaviour of
    the underlying device: the outcome of the successive [write] calls
    that reach it ([true]: the bytes are stored; [false]: the write fails
    and the stream goes bad); once the list is used up every write is
    stored.  Every [write] of the stream is taken to reach the device at
    once.  The stream of the program keeps the default buffer of the
    library, so there a refused write shows only at a later flush or in
    [close()], which the program does not test: on a device that accepts
    every write the two agree, and on a device that fails the buffer
    only lets a failure be seen later, or not at all. *)
Record ofstream := {
  ofs_path : string;
  ofs_is_open : bool;
  ofs_good : bool;
  ofs_data : list byte;
  ofs_device : list bool
}.

Definition ofs_write (bs : list byte) (s : ofstream) : ofstream :=
  if ofs_good s then
    match ofs_device s with
    | false :: dev =>
        {| ofs_path := ofs_path s; ofs_is_open := ofs_is_open s;
           ofs_good := false; ofs_data := ofs_data s; ofs_device := dev |}
    | true :: dev =>
        {| ofs_path := ofs_path s; ofs_is_open := ofs_is_open s;
           ofs_good := true; ofs_data := ofs_data s ++ bs; ofs_device := dev |}
    | [] =>
        {| ofs_path := ofs_path s; ofs_is_open := ofs_is_open s;
           ofs_good := true; ofs_data := ofs_data s ++ bs; ofs_device := [] |}
    end
  else s.

Definition ofs_close (s : ofstream) : ofstream :=
  {| ofs_path := ofs_path s; ofs_is_open := false;
     ofs_good := ofs_good s; ofs_data := ofs_data s;
     ofs_device := ofs_device s |}.

(** [ofs.open(path, ios_base::binary)]: [can_open] says whether the file
    system lets the file be created; a file that is opened is truncated. *)
Definition ofs_open (path : string) (can_open : bool) (dev : list bool)
  : ofstream :=
  {| ofs_path := path; ofs_is_open := can_open; ofs_good := can_open;
     ofs_data := []; ofs_device := dev |}.

(** A stream that is good on a device that will not fail. *)
Definition healthy (s : ofstream) : Prop :=
  ofs_good s = true /\ Forall (fun b => b = true) (ofs_device s).

Definition decimal (n : Z) : string :=
  NilZero.string_of_uint (N.to_uint (Z.to_N n)).

Definition hitFileName (i_imageId : Z) : string :=
  ("imageHits/" ++ decimal i_imageId ++ ".dat")%string.

(** [openHitFile]. *)
Definition openHitFile (can_open : bool) (dev : list bool) (i_imageId : Z)
  : bool * ofstream :=
  let ofs := ofs_open (hitFileName i_imageId) can_open dev in
  if negb (ofs_good ofs) then (false, ofs_close ofs) else (true, ofs).

Section Serializer.

Variable order : byte_order.

(** The bytes of one hit record, as [writeHit] lays them out. *)
Definition hitBytes (hit : HitForward) : list byte :=
  native_bytes order 4 (i_wordId hit) ++
  native_bytes order 4 (i_imageId hit) ++
  native_bytes order 2 (i_angle hit) ++
  native_bytes order 2 (x hit) ++
  native_bytes order 2 (y hit).

(** [writeHit]: the health of the stream is tested once, before the five
    writes; the writes themselves are not tested. *)
Definition writeHit (ofs : ofstream) (hit : HitForward) : bool * ofstream :=
  if negb (ofs_good ofs) then (false, ofs)
  else
    let ofs := ofs_write (native_bytes order 4 (i_wordId hit)) ofs in
    let ofs := ofs_write (native_bytes order 4 (i_imageId hit)) ofs in
    let ofs := ofs_write (native_bytes order 2 (i_angle hit)) ofs in
    let ofs := ofs_write (native_bytes order 2 (x hit)) ofs in
    let ofs := ofs_write (native_bytes order 2 (y hit)) ofs in
    (true, ofs).

End Serializer.

(* ------------------------------------------------------------------ *)
(** ** The request: [processNewImage] *)

(** The 16-bit encoding [v / d * (1 << 16)] stored in a [u_int16_t]:
    the integers are converted to [float], the quotient and the product
    are single-precision operations, and the result is converted to an
    integer by the assignment. *)
Definition scaled16 (v d : F32.float) : F32.float :=
  F32.mul (F32.div v d) (F32.of_int (Z.shiftl 1 16)).

Definition fixed16 (v d : F32.float) : Z :=
  F32.to_uint16 (scaled16 v d).

(** The encoding as section 4.4 of the specification words it,
    [round(v / d * 65536) mod 65536], on exact rationals, with the
    rounding to the nearest integer (halves upward). *)
Definition spec_round (q : Q) : Z := Qfloor (q + (1 # 2)).

Definition spec_fixed16 (v d : Q) : Z :=
  spec_round (v / d * 65536) mod 65536.

(** The decoding of section 8: [fixed / 65536 * full], where [full] is
    360 for the angle and the width or the height for a position. *)
Definition decode16 (fixed : Z) (full : Q) : Q :=
  (inject_Z fixed / 65536 * full)%Q.

(** A coordinate that a detector can return for an extent [full]: a
    single-precision number in [0, full). *)
Definition within (v : F32.float) (full : Z) : Prop :=
  F32.valid v = true /\ F32.is_finite v = true /\
  (0 <= F32.toQ v)%Q /\ (F32.toQ v < inject_Z full)%Q.

(** A keypoint of an image [w] wide and [h] high. *)
Definition in_image (kp : KeyPoint) (w h : Z) : Prop :=
  within (angle kp) 360 /\ within (pt_x kp) w /\ within (pt_y kp) h.

(** The hit built in the body of the inner loop (lines 121-126);
    [indices[j]] is an [int] and the field an unsigned 32-bit integer. *)
Definition newHit (idx i_imageId angle x y : Z) : HitForward :=
  {| i_wordId := to_u32 idx; i_imageId := i_imageId;
     i_angle := angle; Hit.x := x; Hit.y := y |}.

(** What one call of [processNewImage] does to the outside: the value it
    returns, the status codes sent to the client, the hit file ([None]
    when [openHitFile] was never called), the queries made to the index
    and the hits that [writeHit] accepted. *)
Record Run := {
  ret : bool;
  replies : list Reply;
  file : option ofstream;
  queries : list (Descriptor * Z);
  hits : list HitForward
}.

Section Extractor.

Variable order : byte_order.
Variable imdecode : list byte -> DecodeResult.
Variable SIFT : Mat -> list (KeyPoint * Descriptor).
(** [index->knnSearch(query, indices, dists, knn)]: the indices found. *)
Variable knnSearch : Descriptor -> Z -> list Z.

(** The loop over [indices] (lines 119-134). *)
Fixpoint writeHits (ofs : ofstream) (i_imageId angle x y : Z)
    (indices : list Z) : bool * ofstream * list HitForward :=
  match indices with
  | [] => (true, ofs, [])
  | idx :: rest =>
      let hit := newHit idx i_imageId angle x y in
      let (ok, ofs) := writeHit order ofs hit in
      if negb ok then (false, ofs, [])
      else
        let '(ok, ofs, hs) := writeHits ofs i_imageId angle x y rest in
        (ok, ofs, hit :: hs)
  end.

(** The hits of one keypoint, in the order of the loop. *)
Definition keypointHits (i_imageId i_imgWidth i_imgHeight : Z)
    (kd : KeyPoint * Descriptor) : list HitForward :=
  let angle := fixed16 (angle (fst kd)) (F32.of_int 360) in
  let x := fixed16 (pt_x (fst kd)) (F32.of_int i_imgWidth) in
  let y := fixed16 (pt_y (fst kd)) (F32.of_int i_imgHeight) in
  map (fun idx => newHit idx i_imageId angle x y) (knnSearch (snd kd) 4).

(** The loop over the keypoints (lines 105-135). *)
Fixpoint quantize (ofs : ofstream) (i_imageId i_imgWidth i_imgHeight : Z)
    (keypoints : list (KeyPoint * Descriptor))
  : bool * ofstream * list (Descriptor * Z) * list HitForward :=
  match keypoints with
  | [] => (true, ofs, [], [])
  | kd :: rest =>
      let angle := fixed16 (angle (fst kd)) (F32.of_int 360) in
      let x := fixed16 (pt_x (fst kd)) (F32.of_int i_imgWidth) in
      let y := fixed16 (pt_y (fst kd)) (F32.of_int i_imgHeight) in
      let indices := knnSearch (snd kd) 4 in
      let '(ok, ofs, hs) := writeHits ofs i_imageId angle x y indices in
      if negb ok then (false, ofs, [(snd kd, 4)], hs)
      else
        let '(ok, ofs, qs, hs') :=
          quantize ofs i_imageId i_imgWidth i_imgHeight rest in
        (ok, ofs, (snd kd, 4) :: qs, hs ++ hs')
  end.

Definition reject (r : Reply) : Run :=
  {| ret := false; replies := [r]; file := None; queries := []; hits := [] |}.

(** [processNewImage].  [can_open] and [dev] are the state of the file
    system met by this request. *)
Definition processNewImage (i_imageId : Z) (imgData : list byte)
    (can_open : bool) (dev : list bool) : Run :=
  match imdecode imgData with
  | Raised => reject IMAGE_NOT_DECODED
  | Decoded img =>
      if negb (data img) then reject IMAGE_NOT_DECODED
      else
        let i_imgWidth := to_u32 (cols img) in
        let i_imgHeight := to_u32 (rows img) in
        if (1000 <? i_imgWidth) || (1000 <? i_imgHeight)
        then reject IMAGE_SIZE_TOO_BIG
        else if (i_imgWidth <? 200) || (i_imgHeight <? 200)
        then reject IMAGE_SIZE_TOO_SMALL
        else
          let keypoints := SIFT img in
          let (opened, ofs) := openHitFile can_open dev i_imageId in
          if negb opened then
            {| ret := false; replies := [ERROR_GENERIC]; file := Some ofs;
               queries := []; hits := [] |}
          else
            let '(ok, ofs, qs, hs) :=
              quantize ofs i_imageId i_imgWidth i_imgHeight keypoints in
            if negb ok then
              {| ret := false; replies := [ERROR_GENERIC];
                 file := Some (ofs_close ofs); queries := qs; hits := hs |}
            else
              {| ret := true; replies := [OK];
                 file := Some (ofs_close ofs); queries := qs; hits := hs |}
  end.

End Extractor.

(* ------------------------------------------------------------------ *)
(** ** The vocabulary loader: [readVisualWords] and [init] *)

(** A [std::ifstream]: the bytes not yet read and whether the stream is
    still [good()] (no [eofbit], [failbit] or [badbit]). *)
Record ifstream := {
  ifs_good : bool;
  ifs_rest : list byte
}.

(** [ifs.open(fileName, ios_base::binary)]; [None] is a file that cannot
    be opened. *)
Definition ifs_open (file : option (list byte)) : ifstream :=
  match file with
  | Some bs => {| ifs_good := true; ifs_rest := bs |}
  | None => {| ifs_good := false; ifs_rest := [] |}
  end.

(** [ifs.read(buf, n)] into a buffer that holds [c]: with fewer than [n]
    bytes left the bytes that are there overwrite the start of the
    buffer and the stream fails; a stream that is not good reads
    nothing. *)
Definition ifs_read (n : nat) (s : ifstream) (c : list byte)
  : ifstream * list byte :=
  if ifs_good s then
    if (n <=? length (ifs_rest s))%nat
    then ({| ifs_good := true; ifs_rest := skipn n (ifs_rest s) |},
          firstn n (ifs_rest s))
    else ({| ifs_good := false; ifs_rest := [] |},
          ifs_rest s ++ skipn (length (ifs_rest s)) c)
  else (s, c).

(** The bytes after the first newline, if there is one. *)
Fixpoint after_newline (bs : list byte) : option (list byte) :=
  match bs with
  | [] => None
  | b :: rest => if b =? 10 then Some rest else after_newline rest
  end.

(** [ifs.ignore(numeric_limits<streamsize>::max(), '\n')]. *)
Definition ifs_ignore (s : ifstream) : ifstream :=
  if ifs_good s then
    match after_newline (ifs_rest s) with
    | Some rest => {| ifs_good := true; ifs_rest := rest |}
    | None => {| ifs_good := false; ifs_rest := [] |}
    end
  else s.

(** A [float] of the vocabulary is kept as the four bytes read for it. *)
Definition float_bytes := list byte.

(** One row of [words]: 128 floats. *)
Definition Row := list float_bytes.

(** The loop over [i_col] (lines 227-231): [n] reads into [c], each
    followed by the copy of [c] into the line. *)
Fixpoint readLine (n : nat) (ifs : ifstream) (c : float_bytes)
  : ifstream * float_bytes * Row :=
  match n with
  | O => (ifs, c, [])
  | S n' =>
      let (ifs, c) := ifs_read 4 ifs c in
      let '(ifs', c', line) := readLine n' ifs c in
      (ifs', c', c :: line)
  end.

(** The [while (ifs.good())] loop (lines 224-236); [None] when the fuel
    runs out. *)
Fixpoint readRecords (fuel : nat) (ifs : ifstream) (c : float_bytes)
    (words : list Row) : option (list Row) :=
  match fuel with
  | O => None
  | S fuel' =>
      if ifs_good ifs then
        let '(ifs, c, line) := readLine 128 ifs c in
        if negb (ifs_good ifs) then Some words
        else readRecords fuel' (ifs_ignore ifs) c (words ++ [line])
      else Some words
  end.

(** [readVisualWords]: [c] is the indeterminate initial content of the
    local [float c], [words] the matrix before the call.  Every turn of
    the loop that goes on consumes bytes, so the length of the file
    bounds the number of turns. *)
Definition readVisualWords (file : option (list byte)) (c : float_bytes)
    (words : list Row) : option (bool * list Row) :=
  let ifs := ifs_open file in
  if negb (ifs_good ifs) then Some (false, words)
  else
    match readRecords (S (length (ifs_rest ifs))) ifs c words with
    | Some words => Some (true, words)
    | None => None
    end.

(** How [init] ends: [exit(1)], a failed [assert] (the build keeps
    assertions), or the index is loaded over the vocabulary. *)
Inductive InitResult :=
| Exited (code : Z)
| AssertionFailed
| IndexLoaded (words : list Row).

(** [init]; [None] stands for a loader that does not return. *)
Definition init (file : option (list byte)) (c : float_bytes)
  : option InitResult :=
  match readVisualWords file c [] with
  | None => None
  | Some (false, _) => Some (Exited 1)
  | Some (true, words) =>
      if Z.of_nat (length words) =? 1000000 then Some (IndexLoaded words)
      else Some AssertionFailed
  end.

(** The four-byte groups of a record. *)
Fixpoint chunks4 (n : nat) (bs : list byte) : Row :=
  match n with
  | O => []
  | S n' => firstn 4 bs :: chunks4 n' (skipn 4 bs)
  end.

(** The framing of a vocabulary file that section 4.1 describes: records
    of 512 bytes, each followed by bytes up to and including a newline,
    and possibly a last piece that is too short to be a record. *)
Inductive Framed : list byte -> list Row -> Prop :=
| Framed_short bs :
    (length bs < 512)%nat -> Framed bs []
| Framed_last rec delim :
    length rec = 512%nat -> after_newline delim = None ->
    Framed (rec ++ delim) [chunks4 128 rec]
| Framed_record rec delim rest rows :
    length rec = 512%nat -> after_newline delim = None ->
    Framed rest rows ->
    Framed (rec ++ delim ++ 10 :: rest) (chunks4 128 rec :: rows).

(* ------------------------------------------------------------------ *)
(** ** Reading the formats back

    The inverse direction of the two file formats, used to state what a
    consumer of the files gets. *)

(** The integer that a list of bytes, least significant first, stands
    for. *)
Definition le_value (bs : list byte) : Z :=
  fold_right (fun b acc => b + 256 * acc) 0 bs.

Definition native_value (bo : byte_order) (bs : list byte) : Z :=
  match bo with
  | LittleEndian => le_value bs
  | BigEndian => le_value (rev bs)
  end.

(** The hit that the first 14 bytes of [bs] stand for, field by field in
    the order and the widths of [writeHit]. *)
Definition parseHit (bo : byte_order) (bs : list byte) : HitForward :=
  {| i_wordId := native_value bo (firstn 4 bs);
     i_imageId := native_value bo (firstn 4 (skipn 4 bs));
     i_angle := native_value bo (firstn 2 (skipn 8 bs));
     Hit.x := native_value bo (firstn 2 (skipn 10 bs));
     Hit.y := native_value bo (firstn 2 (skipn 12 bs)) |}.

(** The first [n] records of a hit file. *)
Fixpoint parseHits (bo : byte_order) (n : nat) (bs : list byte)
  : list HitForward :=
  match n with
  | O => []
  | S n' => parseHit bo (firstn 14 bs) :: parseHits bo n' (skipn 14 bs)
  end.

(** A hit whose fields fit the widths of the record. *)
Definition fits_record (hit : HitForward) : Prop :=
  0 <= i_wordId hit < 2 ^ 32 /\ 0 <= i_imageId hit < 2 ^ 32 /\
  0 <= i_angle hit < 2 ^ 16 /\ 0 <= x hit < 2 ^ 16 /\ 0 <= y hit < 2 ^ 16.


(** A record of the vocabulary file with its delimiter and newline. *)
Definition frame (r : list byte * list byte) : list byte :=
  fst r ++ snd r ++ [10].

(* ------------------------------------------------------------------ *)
(** ** A small concrete request, used to exercise the statements *)

Module Sample.

Definition img : Mat := {| data := true; cols := 500; rows := 500 |}.

Definition kp : KeyPoint * Descriptor :=
  ({| pt_x := F32.of_int 250; pt_y := F32.of_int 125;
      angle := F32.of_int 90 |}, [F32.of_int 1; F32.of_int 2]).

(** A keypoint at (10, 10), turned by 13 degrees. *)
Definition kp13 : KeyPoint :=
  {| pt_x := F32.of_int 10; pt_y := F32.of_int 10; angle := F32.of_int 13 |}.

Definition decode (_ : list byte) : DecodeResult := Decoded img.
Definition detect (_ : Mat) : list (KeyPoint * Descriptor) := [kp].
Definition knn (_ : Descriptor) (_ : Z) : list Z := [7; 8; 9; 10].

Definition run (dev : list bool) : Run :=
  processNewImage LittleEndian decode detect knn 42 [] true dev.

End Sample.

Module LoaderSample.

(** A record of 512 bytes, a delimiter, and the first 100 bytes of a
    second record. *)
Definition rec : list byte := map Z.of_nat (seq 0 512).
Definition partial : list byte := repeat 7 100.
Definition file : list byte := rec ++ [13] ++ 10 :: partial.

End LoaderSample.

(* ================================================================== *)
(** * Properties *)

(** ** Streams and the serializer *)

Lemma ofs_write_healthy bs s :
  healthy s ->
  healthy (ofs_write bs s) /\
  ofs_data (ofs_write bs s) = ofs_data s ++ bs.
Proof.
  intros [Hg Hd]. unfold ofs_write. rewrite Hg.
  destruct (ofs_device s) as [|[|] dev] eqn:E; cbn.
  - repeat split; auto.
  - inversion Hd; subst. repeat split; auto.
  - inversion Hd; subst. discriminate.
Qed.

Lemma native_bytes_length bo n v : length (native_bytes bo n v) = n.
Proof.
  destruct bo; unfold native_bytes, le_bytes;
    rewrite ?length_rev, length_map, length_seq; reflexivity.
Qed.

Lemma hitBytes_length bo hit : length (hitBytes bo hit) = 14%nat.
Proof.
  unfold hitBytes. rewrite !length_app, !native_bytes_length. reflexivity.
Qed.

Lemma writeHit_healthy bo s hit :
  healthy s ->
  exists s', writeHit bo s hit = (true, s') /\ healthy s' /\
             ofs_data s' = ofs_data s ++ hitBytes bo hit.
Proof.
  intros H. unfold writeHit. rewrite (proj1 H). cbn [negb].
  eexists. split; [reflexivity|].
  pose proof (ofs_write_healthy (native_bytes bo 4 (i_wordId hit)) s H) as [H1 E1].
  pose proof (ofs_write_healthy (native_bytes bo 4 (i_imageId hit)) _ H1) as [H2 E2].
  pose proof (ofs_write_healthy (native_bytes bo 2 (i_angle hit)) _ H2) as [H3 E3].
  pose proof (ofs_write_healthy (native_bytes bo 2 (x hit)) _ H3) as [H4 E4].
  pose proof (ofs_write_healthy (native_bytes bo 2 (y hit)) _ H4) as [H5 E5].
  split; [exact H5|].
  rewrite E5, E4, E3, E2, E1. unfold hitBytes. rewrite <- !app_assoc. reflexivity.
Qed.

(** ** The quantization loops *)

Section Loops.

Variable order : byte_order.
Variable knnSearch : Descriptor -> Z -> list Z.

Lemma writeHits_prefix indices : forall ofs id a px py ok ofs' hs,
  writeHits order ofs id a px py indices = (ok, ofs', hs) ->
  (exists j, hs = firstn j (map (fun idx => newHit idx id a px py) indices)) /\
  (ok = true -> hs = map (fun idx => newHit idx id a px py) indices).
Proof.
  induction indices as [|idx rest IH]; intros ofs id a px py ok ofs' hs E.
  - cbn in E. inversion E; subst. split; [exists 0%nat|]; reflexivity.
  - cbn [writeHits] in E.
    destruct (writeHit order ofs (newHit idx id a px py)) as [ok1 ofs1].
    destruct ok1; cbn [negb] in E.
    + destruct (writeHits order ofs1 id a px py rest) as [[ok2 ofs2] hs2] eqn:E2.
      inversion E; subst.
      destruct (IH _ _ _ _ _ _ _ _ E2) as [[j Hj] Hall].
      split.
      * exists (S j). cbn. now rewrite Hj.
      * intros Hok. cbn. now rewrite (Hall Hok).
    + inversion E; subst. split; [exists 0%nat; reflexivity | discriminate].
Qed.

(** The hits of a run come in groups, one group per keypoint reached, in
    the order of the keypoints; a group is an initial part of the hits of
    its keypoint, and all of them when the loop ran to its end. *)
Lemma quantize_groups id w h kps : forall ofs ok ofs' qs hs,
  quantize order knnSearch ofs id w h kps = (ok, ofs', qs, hs) ->
  exists groups,
    hs = concat groups /\
    qs = map (fun kd => (snd kd, 4)) (firstn (length groups) kps) /\
    Forall2 (fun kd g => exists j, g = firstn j (keypointHits knnSearch id w h kd))
            (firstn (length groups) kps) groups /\
    (ok = true -> groups = map (keypointHits knnSearch id w h) kps).
Proof.
  induction kps as [|kd rest IH]; intros ofs ok ofs' qs hs E.
  - cbn in E. inversion E; subst. exists []. cbn. repeat split; auto.
  - cbn [quantize] in E.
    destruct (writeHits order ofs id _ _ _ (knnSearch (snd kd) 4))
      as [[ok1 ofs1] hs1] eqn:E1.
    apply writeHits_prefix in E1. destruct E1 as [[j Hj] Hall].
    destruct ok1; cbn [negb] in E.
    + destruct (quantize order knnSearch ofs1 id w h rest)
        as [[[ok2 ofs2] qs2] hs2] eqn:E2.
      inversion E; subst ok ofs' qs hs.
      destruct (IH _ _ _ _ _ E2) as (groups & Hc & Hq & Hf & Hok).
      exists (hs1 :: groups). cbn [concat length firstn map].
      repeat split.
      * now rewrite Hc.
      * now rewrite Hq.
      * constructor; [exists j; exact Hj | exact Hf].
      * intros Ht. rewrite (Hok Ht), (Hall eq_refl). reflexivity.
    + inversion E; subst ok ofs' qs hs.
      exists [hs1]. cbn. rewrite app_nil_r. repeat split.
      * constructor; [exists j; exact Hj | constructor].
      * discriminate.
Qed.

(** On a device that does not fail the loops write every hit. *)
Lemma writeHits_healthy indices : forall ofs id a px py,
  healthy ofs ->
  exists ofs',
    writeHits order ofs id a px py indices =
      (true, ofs', map (fun idx => newHit idx id a px py) indices) /\
    healthy ofs' /\
    ofs_data ofs' =
      ofs_data ofs ++
      concat (map (hitBytes order) (map (fun idx => newHit idx id a px py) indices)).
Proof.
  induction indices as [|idx rest IH]; intros ofs id a px py H.
  - exists ofs. cbn. rewrite app_nil_r. auto.
  - cbn [writeHits].
    destruct (writeHit_healthy order ofs (newHit idx id a px py) H)
      as (ofs1 & E1 & H1 & D1).
    rewrite E1. cbn [negb].
    destruct (IH ofs1 id a px py H1) as (ofs2 & E2 & H2 & D2).
    rewrite E2. exists ofs2. repeat split; try apply H2.
    rewrite D2, D1. cbn [map concat]. now rewrite <- app_assoc.
Qed.

Lemma quantize_healthy id w h kps : forall ofs,
  healthy ofs ->
  exists ofs' qs,
    quantize order knnSearch ofs id w h kps =
      (true, ofs', qs, flat_map (keypointHits knnSearch id w h) kps) /\
    healthy ofs' /\
    ofs_data ofs' =
      ofs_data ofs ++
      concat (map (hitBytes order) (flat_map (keypointHits knnSearch id w h) kps)).
Proof.
  induction kps as [|kd rest IH]; intros ofs H.
  - exists ofs, []. cbn. rewrite app_nil_r. auto.
  - cbn [quantize].
    destruct (writeHits_healthy (knnSearch (snd kd) 4) ofs id
                (fixed16 (angle (fst kd)) (F32.of_int 360))
                (fixed16 (pt_x (fst kd)) (F32.of_int w))
                (fixed16 (pt_y (fst kd)) (F32.of_int h)) H)
      as (ofs1 & E1 & H1 & D1).
    rewrite E1. cbn [negb].
    destruct (IH ofs1 H1) as (ofs2 & qs2 & E2 & H2 & D2).
    rewrite E2. exists ofs2, ((snd kd, 4) :: qs2).
    repeat split; try apply H2.
    rewrite D2, D1. cbn [flat_map]. rewrite map_app, concat_app.
    unfold keypointHits at 3. now rewrite <- app_assoc.
Qed.

End Loops.

Lemma in_firstn_in {A} (a : A) n : forall l, In a (firstn n l) -> In a l.
Proof.
  induction n as [|n IH]; intros [|b l] H; cbn in H; try contradiction.
  destruct H as [->|H]; [now left | right; auto].
Qed.

Lemma keypointHits_wordIds knnSearch id w h kd :
  (forall idx, In idx (knnSearch (snd kd) 4) -> 0 <= idx < 2 ^ 32) ->
  map i_wordId (keypointHits knnSearch id w h kd) = knnSearch (snd kd) 4.
Proof.
  unfold keypointHits. intros Hr. rewrite map_map. cbn [i_wordId newHit].
  induction (knnSearch (snd kd) 4) as [|idx l IH]; [reflexivity|].
  cbn [map]. f_equal.
  - unfold to_u32. apply Z.mod_small. apply Hr. now left.
  - apply IH. intros j Hj. apply Hr. now right.
Qed.

Lemma concat_hitBytes_length bo hs :
  Z.of_nat (length (concat (map (hitBytes bo) hs))) = 14 * Z.of_nat (length hs).
Proof.
  induction hs as [|hit hs IH]; [reflexivity|].
  cbn [map concat length]. rewrite length_app, hitBytes_length. lia.
Qed.

(** ** The request *)

(** C1.  A request that reaches the quantization asks the index once per
    keypoint reached, in keypoint order, for the 4 nearest neighbours of
    that keypoint's descriptor; the hits come in groups in keypoint
    order, and a request that ends with success has for every keypoint
    exactly 4 hits whose word identifiers are the neighbours in the order
    the index returned them, the first one being the nearest neighbour.
    The index returns 4 row positions per query. *)
Theorem C1_one_query_four_hits_per_keypoint :
  forall order imdecode SIFT knnSearch imageId imgData can_open dev img,
    (forall d, length (knnSearch d 4) = 4%nat) ->
    (forall d idx, In idx (knnSearch d 4) -> 0 <= idx < 2 ^ 32) ->
    imdecode imgData = Decoded img ->
    let run := processNewImage order imdecode SIFT knnSearch
                 imageId imgData can_open dev in
    let group := keypointHits knnSearch imageId
                   (to_u32 (cols img)) (to_u32 (rows img)) in
    (forall kd,
        length (group kd) = 4%nat /\
        map i_wordId (group kd) = knnSearch (snd kd) 4 /\
        option_map i_wordId (hd_error (group kd)) =
          hd_error (knnSearch (snd kd) 4)) /\
    (exists groups,
        hits run = concat groups /\
        queries run =
          map (fun kd => (snd kd, 4)) (firstn (length groups) (SIFT img)) /\
        Forall2 (fun kd g => exists j, g = firstn j (group kd))
                (firstn (length groups) (SIFT img)) groups) /\
    (ret run = true ->
        queries run = map (fun kd => (snd kd, 4)) (SIFT img) /\
        hits run = flat_map group (SIFT img)).
Proof.
  intros order imdecode SIFT knnSearch imageId imgData can_open dev img
         Hlen Hids Hdec run group.
  split; [|split].
  - intros kd. assert (Hw := keypointHits_wordIds knnSearch imageId
      (to_u32 (cols img)) (to_u32 (rows img)) kd (Hids (snd kd))).
    fold group in Hw. repeat split.
    + rewrite <- (length_map i_wordId), Hw. apply Hlen.
    + exact Hw.
    + rewrite <- Hw. now destruct (group kd).
  - subst run. unfold processNewImage. rewrite Hdec.
    destruct (negb (data img));
      [exists []; cbn; repeat split; constructor|].
    destruct (_ || _);
      [exists []; cbn; repeat split; constructor|].
    destruct (_ || _);
      [exists []; cbn; repeat split; constructor|].
    destruct (openHitFile can_open dev imageId) as [opened ofs].
    destruct (negb opened);
      [exists []; cbn; repeat split; constructor|].
    destruct (quantize _ _ _ _ _ _ _) as [[[ok ofs'] qs] hs] eqn:E.
    apply quantize_groups in E. destruct E as (groups & Hc & Hq & Hf & _).
    exists groups. destruct (negb ok); cbn; auto.
  - subst run. unfold processNewImage. rewrite Hdec.
    destruct (negb (data img)); [discriminate|].
    destruct (_ || _); [discriminate|].
    destruct (_ || _); [discriminate|].
    destruct (openHitFile can_open dev imageId) as [opened ofs].
    destruct (negb opened); [discriminate|].
    destruct (quantize _ _ _ _ _ _ _) as [[[ok ofs'] qs] hs] eqn:E.
    apply quantize_groups in E. destruct E as (groups & Hc & Hq & _ & Hok).
    destruct ok; cbn; [|discriminate]. intros _.
    specialize (Hok eq_refl).
    rewrite Hq, Hc, Hok, length_map, firstn_all, flat_map_concat_map. auto.
Qed.

Lemma C1_witness :
  (forall d, length (Sample.knn d 4) = 4%nat) /\
  ret (Sample.run []) = true /\
  queries (Sample.run []) = [(snd Sample.kp, 4)] /\
  map i_wordId (hits (Sample.run [])) = [7; 8; 9; 10].
Proof.
  assert (Hlen : forall d, length (Sample.knn d 4) = 4%nat) by reflexivity.
  assert (Hids : forall d idx, In idx (Sample.knn d 4) -> 0 <= idx < 2 ^ 32).
  { intros d idx H. cbn in H. lia. }
  destruct (C1_one_query_four_hits_per_keypoint LittleEndian Sample.decode
              Sample.detect Sample.knn 42 [] true [] Sample.img
              Hlen Hids eq_refl) as (_ & _ & Hok).
  split; [exact Hlen|]. split; [reflexivity|].
  destruct (Hok eq_refl) as [Hq Hh]. split.
  - exact Hq.
  - unfold Sample.run. rewrite Hh. reflexivity.
Defined.

Lemma firstn_length_firstn {A} j (l : list A) :
  firstn (length (firstn j l)) l = firstn j l.
Proof.
  rewrite length_firstn. destruct (Nat.le_ge_cases j (length l)) as [H | H].
  - now rewrite Nat.min_l.
  - rewrite Nat.min_r by exact H.
    now rewrite firstn_all, firstn_all2.
Qed.

(** What ties a group of hits to its keypoint: the group is the first
    hits that the loop builds for this keypoint, one per neighbour that
    the index returned for its descriptor and in that order, and each of
    them carries the image identifier of the request and the encodings
    of this keypoint. *)
Lemma keypoint_group knnSearch imageId w h kd j g :
  g = firstn j (keypointHits knnSearch imageId w h kd) ->
  map i_wordId g =
    firstn (length g) (map to_u32 (knnSearch (snd kd) 4)) /\
  forall hit, In hit g ->
    Hit.i_imageId hit = imageId /\
    i_angle hit = fixed16 (angle (fst kd)) (F32.of_int 360) /\
    x hit = fixed16 (pt_x (fst kd)) (F32.of_int w) /\
    y hit = fixed16 (pt_y (fst kd)) (F32.of_int h).
Proof.
  intros ->. split.
  - unfold keypointHits. rewrite <- firstn_map, map_map. cbn [i_wordId newHit].
    rewrite length_firstn, length_map, <- (length_map to_u32).
    rewrite <- length_firstn. symmetry. apply firstn_length_firstn.
  - intros hit Hin. apply in_firstn_in in Hin. unfold keypointHits in Hin.
    apply in_map_iff in Hin. destruct Hin as (idx & <- & _). cbn. auto.
Qed.

(** C10.  The hits of a request are, in keypoint order, the groups of
    hits produced for the keypoints: the group of a keypoint is made of
    the hits built for the neighbours that the index returned for its
    descriptor, in that order (all of them, one per neighbour, when the
    request ends with success), and every hit of the group carries the
    image identifier of the request and the angle, x and y encodings of
    that keypoint: inside a group only the word identifier varies. *)
Theorem C10_group_shares_geometry :
  forall order imdecode SIFT knnSearch imageId imgData can_open dev img,
    imdecode imgData = Decoded img ->
    let run := processNewImage order imdecode SIFT knnSearch
                 imageId imgData can_open dev in
    let w := to_u32 (cols img) in
    let h := to_u32 (rows img) in
    exists groups,
      hits run = concat groups /\
      Forall2
        (fun kd g =>
           (exists j, g = firstn j (keypointHits knnSearch imageId w h kd)) /\
           map i_wordId g =
             firstn (length g) (map to_u32 (knnSearch (snd kd) 4)) /\
           forall hit, In hit g ->
             Hit.i_imageId hit = imageId /\
             i_angle hit = fixed16 (angle (fst kd)) (F32.of_int 360) /\
             x hit = fixed16 (pt_x (fst kd)) (F32.of_int w) /\
             y hit = fixed16 (pt_y (fst kd)) (F32.of_int h))
        (firstn (length groups) (SIFT img)) groups /\
      (ret run = true ->
       length groups = length (SIFT img) /\
       Forall2
         (fun kd g =>
            length g = length (knnSearch (snd kd) 4) /\
            map i_wordId g = map to_u32 (knnSearch (snd kd) 4))
         (SIFT img) groups).
Proof.
  intros order imdecode SIFT knnSearch imageId imgData can_open dev img
         Hdec run w h.
  subst run. unfold processNewImage. rewrite Hdec. fold w h.
  destruct (negb (data img));
    [exists []; cbn; repeat split; try constructor; discriminate|].
  destruct (_ || _);
    [exists []; cbn; repeat split; try constructor; discriminate|].
  destruct (_ || _);
    [exists []; cbn; repeat split; try constructor; discriminate|].
  destruct (openHitFile can_open dev imageId) as [opened ofs].
  destruct (negb opened);
    [exists []; cbn; repeat split; try constructor; discriminate|].
  destruct (quantize _ _ _ _ _ _ _) as [[[ok ofs'] qs] hs] eqn:E.
  apply quantize_groups in E. destruct E as (groups & Hc & _ & Hf & Hok).
  exists groups. split; [now destruct (negb ok)|]. split.
  - clear Hc Hok.
    induction Hf as [|kd g kds gs [j Hj] _ IH]; constructor; auto.
    split; [exists j; exact Hj|].
    exact (keypoint_group knnSearch imageId w h kd j g Hj).
  - destruct ok; cbn; [|discriminate]. intros _.
    rewrite (Hok eq_refl). split; [apply length_map|].
    clear. induction (SIFT img) as [|kd kps IH]; cbn [map]; constructor; auto.
    unfold keypointHits. rewrite length_map, map_map. cbn [i_wordId newHit].
    auto.
Qed.

Lemma C10_witness :
  exists groups,
    hits (Sample.run []) = concat groups /\
    length groups = 1%nat /\
    Forall2
      (fun kd g =>
         length g = length (Sample.knn (snd kd) 4) /\
         map i_wordId g = map to_u32 (Sample.knn (snd kd) 4))
      [Sample.kp] groups.
Proof.
  destruct (C10_group_shares_geometry LittleEndian Sample.decode Sample.detect
              Sample.knn 42 [] true [] Sample.img eq_refl)
    as (groups & Hc & _ & Hok).
  exists groups. split; [exact Hc|]. apply Hok. vm_compute. reflexivity.
Defined.

(** C9.  When the image buffer cannot be decoded ([imdecode] raises, or
    returns a matrix without pixel data) the request answers
    [IMAGE_NOT_DECODED] and nothing else, returns [false], and does not
    call [openHitFile]: no hit file is opened or created. *)
Theorem C9_undecodable_image :
  forall order imdecode SIFT knnSearch imageId imgData can_open dev,
    (imdecode imgData = Raised \/
     exists img, imdecode imgData = Decoded img /\ data img = false) ->
    let run := processNewImage order imdecode SIFT knnSearch
                 imageId imgData can_open dev in
    ret run = false /\ replies run = [IMAGE_NOT_DECODED] /\ file run = None.
Proof.
  intros order imdecode SIFT knnSearch imageId imgData can_open dev H run.
  subst run. unfold processNewImage.
  destruct H as [-> | (img & -> & Hdata)].
  - cbn. auto.
  - rewrite Hdata. cbn. auto.
Qed.

Lemma C9_witness :
  let run := processNewImage LittleEndian (fun _ => Raised) Sample.detect
               Sample.knn 42 [1; 2; 3] true [] in
  ret run = false /\ replies run = [IMAGE_NOT_DECODED] /\ file run = None.
Proof.
  exact (C9_undecodable_image LittleEndian (fun _ => Raised) Sample.detect
           Sample.knn 42 [1; 2; 3] true [] (or_introl eq_refl)).
Defined.



(** The test for too big is made first: an image that is too small in
    one dimension and too big in the other is answered
    [IMAGE_SIZE_TOO_BIG]. *)
Remark too_big_is_tested_first :
  let img := {| data := true; cols := 199; rows := 1001 |} in
  replies (processNewImage LittleEndian (fun _ => Decoded img)
             Sample.detect Sample.knn 42 [] true []) = [IMAGE_SIZE_TOO_BIG].
Proof. reflexivity. Qed.

(** C6.  A hit record is 14 bytes: wordId on 4 bytes, imageId on 4,
    angle on 2, x on 2 and y on 2, in that order and with nothing
    between them; [writeHit] on a stream whose device accepts the writes
    appends exactly these bytes; and the file of a request that ends
    with success on such a device is the concatenation of the records of
    its hits, with nothing between two records. *)
Theorem C6_hit_record_layout :
  forall order,
    (forall hit,
        hitBytes order hit =
          native_bytes order 4 (i_wordId hit) ++
          native_bytes order 4 (Hit.i_imageId hit) ++
          native_bytes order 2 (i_angle hit) ++
          native_bytes order 2 (x hit) ++
          native_bytes order 2 (y hit) /\
        length (native_bytes order 4 (i_wordId hit)) = 4%nat /\
        length (native_bytes order 4 (Hit.i_imageId hit)) = 4%nat /\
        length (native_bytes order 2 (i_angle hit)) = 2%nat /\
        length (native_bytes order 2 (x hit)) = 2%nat /\
        length (native_bytes order 2 (y hit)) = 2%nat /\
        length (hitBytes order hit) = 14%nat) /\
    (forall ofs hit,
        healthy ofs ->
        exists ofs',
          writeHit order ofs hit = (true, ofs') /\
          ofs_data ofs' = ofs_data ofs ++ hitBytes order hit) /\
    (forall imdecode SIFT knnSearch imageId imgData dev,
        Forall (fun b => b = true) dev ->
        let run := processNewImage order imdecode SIFT knnSearch
                     imageId imgData true dev in
        ret run = true ->
        exists ofs,
          file run = Some ofs /\
          ofs_data ofs = concat (map (hitBytes order) (hits run)) /\
          Z.of_nat (length (ofs_data ofs)) = 14 * Z.of_nat (length (hits run))).
Proof.
  intros order. split; [|split].
  - intros hit. rewrite !native_bytes_length, hitBytes_length.
    repeat split; reflexivity.
  - intros ofs hit H.
    destruct (writeHit_healthy order ofs hit H) as (ofs' & E & _ & D).
    exists ofs'. auto.
  - intros imdecode SIFT knnSearch imageId imgData dev Hdev run.
    subst run. unfold processNewImage.
    destruct (imdecode imgData) as [|img]; [discriminate|].
    destruct (negb (data img)); [discriminate|].
    destruct (_ || _); [discriminate|].
    destruct (_ || _); [discriminate|].
    unfold openHitFile, ofs_open. cbv zeta. cbn [ofs_good negb].
    set (ofs0 := {| ofs_path := hitFileName imageId; ofs_is_open := true;
                    ofs_good := true; ofs_data := []; ofs_device := dev |}).
    assert (H0 : healthy ofs0) by (split; [reflexivity | exact Hdev]).
    destruct (quantize_healthy order knnSearch imageId
                (to_u32 (cols img)) (to_u32 (rows img)) (SIFT img) ofs0 H0)
      as (ofs' & qs & E & _ & D).
    rewrite E. cbn. intros _. eexists. split; [reflexivity|].
    cbn [ofs_close ofs_data]. rewrite D. cbn [ofs_data ofs0 app].
    split; [reflexivity | apply concat_hitBytes_length].
Qed.

Lemma C6_witness :
  exists ofs,
    file (Sample.run [true; true; true]) = Some ofs /\
    ofs_data ofs =
      concat (map (hitBytes LittleEndian) (hits (Sample.run [true; true; true]))) /\
    Z.of_nat (length (ofs_data ofs)) =
      14 * Z.of_nat (length (hits (Sample.run [true; true; true]))).
Proof.
  refine (proj2 (proj2 (C6_hit_record_layout LittleEndian))
            Sample.decode Sample.detect Sample.knn 42 [] [true; true; true]
            _ _).
  - repeat constructor.
  - reflexivity.
Defined.

(** C3: the request that shows the defect.  The device accepts the 15
    writes of the first three hits of the only keypoint and fails on the
    first write of the fourth.  [writeHit] has tested the stream before
    that write and tests nothing after it, so it returns [true]; no later
    call is there to see the bad stream, and the request ends with [OK]
    and returns [true], although the file holds 42 bytes, three records
    out of the four hits produced. *)
Theorem C3_lost_write_reported_ok :
  let run := Sample.run (repeat true 15 ++ [false]) in
  ret run = true /\
  replies run = [OK] /\
  length (hits run) = 4%nat /\
  exists ofs,
    file run = Some ofs /\
    ofs_good ofs = false /\
    length (ofs_data ofs) = 42%nat /\
    ofs_data ofs = concat (map (hitBytes LittleEndian) (firstn 3 (hits run))).
Proof.
  vm_compute. repeat split. eexists. repeat split.
Qed.

(** ** The vocabulary loader *)

Lemma readLine_bad n : forall s c,
  ifs_good s = false -> ifs_good (fst (fst (readLine n s c))) = false.
Proof.
  induction n as [|n IH]; intros s c H; cbn [readLine]; [exact H|].
  unfold ifs_read. rewrite H.
  specialize (IH s c H). destruct (readLine n s c) as [[s' c'] l]. exact IH.
Qed.

Lemma readLine_short n : forall bs c,
  (length bs < 4 * n)%nat ->
  ifs_good (fst (fst (readLine n {| ifs_good := true; ifs_rest := bs |} c)))
    = false.
Proof.
  induction n as [|n IH]; intros bs c H; [lia|].
  cbn [readLine]. unfold ifs_read. cbn [ifs_good ifs_rest].
  destruct (4 <=? length bs)%nat eqn:E.
  - apply Nat.leb_le in E.
    assert (Hs : (length (skipn 4 bs) < 4 * n)%nat) by (rewrite length_skipn; lia).
    specialize (IH (skipn 4 bs) (firstn 4 bs) Hs).
    destruct (readLine n _ _) as [[s' c'] l]. exact IH.
  - pose proof (readLine_bad n {| ifs_good := false; ifs_rest := [] |}
                  (bs ++ skipn (length bs) c) eq_refl) as Hb.
    destruct (readLine n _ _) as [[s' c'] l]. exact Hb.
Qed.

Lemma readLine_enough n : forall bs c,
  (4 * n <= length bs)%nat ->
  exists c',
    readLine n {| ifs_good := true; ifs_rest := bs |} c =
      ({| ifs_good := true; ifs_rest := skipn (4 * n) bs |}, c', chunks4 n bs).
Proof.
  induction n as [|n IH]; intros bs c H.
  - exists c. reflexivity.
  - cbn [readLine chunks4]. unfold ifs_read. cbn [ifs_good ifs_rest].
    assert (E : (4 <=? length bs)%nat = true) by (apply Nat.leb_le; lia).
    rewrite E.
    assert (Hs : (4 * n <= length (skipn 4 bs))%nat) by (rewrite length_skipn; lia).
    destruct (IH (skipn 4 bs) (firstn 4 bs) Hs) as [c' Hc'].
    rewrite Hc'. exists c'. rewrite skipn_skipn.
    replace (4 * n + 4)%nat with (4 * S n)%nat by lia. reflexivity.
Qed.

Lemma chunks4_app n : forall rec tl,
  length rec = (4 * n)%nat -> chunks4 n (rec ++ tl) = chunks4 n rec.
Proof.
  induction n as [|n IH]; intros rec tl H; [reflexivity|].
  cbn [chunks4].
  rewrite firstn_app, skipn_app.
  replace (4 - length rec)%nat with 0%nat by lia.
  rewrite firstn_O, skipn_O, app_nil_r. f_equal.
  apply IH. rewrite length_skipn. lia.
Qed.

Lemma concat_chunks4 n : forall rec,
  length rec = (4 * n)%nat -> concat (chunks4 n rec) = rec.
Proof.
  induction n as [|n IH]; intros rec H.
  - destruct rec; [reflexivity | discriminate].
  - cbn [chunks4 concat]. rewrite IH by (rewrite length_skipn; lia).
    apply firstn_skipn.
Qed.

Lemma chunks4_shape n : forall rec,
  length rec = (4 * n)%nat ->
  length (chunks4 n rec) = n /\
  Forall (fun f => length f = 4%nat) (chunks4 n rec).
Proof.
  induction n as [|n IH]; intros rec H; cbn [chunks4 length].
  - split; [reflexivity | constructor].
  - destruct (IH (skipn 4 rec)) as [Hl Hf]; [rewrite length_skipn; lia|].
    split; [now rewrite Hl|]. constructor; [|exact Hf].
    rewrite length_firstn. lia.
Qed.

Lemma after_newline_some bs : forall rest,
  after_newline bs = Some rest ->
  exists delim, bs = delim ++ 10 :: rest /\ after_newline delim = None.
Proof.
  induction bs as [|b bs IH]; intros rest H; [discriminate|].
  cbn [after_newline] in H. destruct (b =? 10) eqn:E.
  - apply Z.eqb_eq in E. inversion H; subst. exists []. auto.
  - destruct (IH rest H) as (delim & -> & Hd).
    exists (b :: delim). split; [reflexivity|]. cbn. now rewrite E.
Qed.

Lemma after_newline_app delim rest :
  after_newline delim = None ->
  after_newline (delim ++ 10 :: rest) = Some rest.
Proof.
  induction delim as [|b delim IH]; intros H; [reflexivity|].
  cbn in *. destruct (b =? 10); [discriminate | auto].
Qed.

(** The loader returns the rows of the framing, for any framing. *)
Lemma readRecords_framed bs rows :
  Framed bs rows ->
  forall fuel c words,
    (length bs < fuel)%nat ->
    readRecords fuel {| ifs_good := true; ifs_rest := bs |} c words =
      Some (words ++ rows).
Proof.
  induction 1 as [bs Hs | rec delim Hr Hd | rec delim rest rows Hr Hd HF IH];
    intros [|fuel] c words Hfuel; try lia; cbn [readRecords ifs_good].
  - pose proof (readLine_short 128 bs c ltac:(lia)) as Hb.
    destruct (readLine 128 _ c) as [[s' c'] l]. cbn in Hb. rewrite Hb.
    cbn. now rewrite app_nil_r.
  - destruct (readLine_enough 128 (rec ++ delim) c) as [c' E];
      [rewrite length_app; lia|].
    rewrite E. cbn [ifs_good negb].
    rewrite chunks4_app by lia.
    rewrite skipn_app, skipn_all2 by lia.
    replace (4 * 128 - length rec)%nat with 0%nat by lia.
    rewrite skipn_O. cbn [app].
    unfold ifs_ignore. cbn [ifs_good ifs_rest]. rewrite Hd.
    rewrite length_app in Hfuel.
    destruct fuel as [|fuel]; [lia|]. reflexivity.
  - destruct (readLine_enough 128 (rec ++ delim ++ 10 :: rest) c) as [c' E];
      [rewrite length_app; lia|].
    rewrite E. cbn [ifs_good negb].
    rewrite chunks4_app by lia.
    rewrite skipn_app, skipn_all2 by lia.
    replace (4 * 128 - length rec)%nat with 0%nat by lia.
    rewrite skipn_O. cbn [app].
    unfold ifs_ignore. cbn [ifs_good ifs_rest].
    rewrite after_newline_app by exact Hd.
    rewrite IH.
    + now rewrite <- app_assoc.
    + rewrite !length_app in Hfuel. cbn [length] in Hfuel. lia.
Qed.

(** Every file has a framing. *)
Lemma Framed_total : forall bs, exists rows, Framed bs rows.
Proof.
  intros bs. remember (length bs) as n eqn:Hn.
  revert bs Hn. induction n as [n IH] using lt_wf_ind. intros bs Hn.
  destruct (Nat.lt_ge_cases (length bs) 512) as [Hs | Hl].
  - exists []. now constructor.
  - rewrite <- (firstn_skipn 512 bs).
    assert (Hrec : length (firstn 512 bs) = 512%nat)
      by (rewrite length_firstn; lia).
    destruct (after_newline (skipn 512 bs)) as [rest|] eqn:E.
    + apply after_newline_some in E. destruct E as (delim & E & Hd).
      assert (Hlt : (length rest < n)%nat).
      { assert (L : length (skipn 512 bs) = length (delim ++ 10 :: rest))
          by now rewrite E.
        rewrite length_skipn, length_app in L. cbn [length] in L. lia. }
      destruct (IH _ Hlt rest eq_refl) as [rows HF].
      exists (chunks4 128 (firstn 512 bs) :: rows). rewrite E.
      now constructor.
    + exists [chunks4 128 (firstn 512 bs)]. now constructor.
Qed.

(** The rows of a framing are whole records of the file. *)
Lemma Framed_rows bs rows :
  Framed bs rows ->
  Forall (fun row =>
            length row = 128%nat /\
            Forall (fun f => length f = 4%nat) row /\
            exists pre post, bs = pre ++ concat row ++ post) rows.
Proof.
  induction 1 as [bs Hs | rec delim Hr Hd | rec delim rest rows Hr Hd HF IH].
  - constructor.
  - constructor; [|constructor].
    destruct (chunks4_shape 128 rec Hr) as [Hl Hf].
    repeat split; auto. exists [], delim.
    now rewrite concat_chunks4 by exact Hr.
  - destruct (chunks4_shape 128 rec Hr) as [Hl Hf].
    constructor.
    + repeat split; auto. exists [], (delim ++ 10 :: rest).
      now rewrite concat_chunks4 by exact Hr.
    + eapply Forall_impl; [|exact IH].
      intros row (H1 & H2 & pre & post & ->).
      repeat split; auto.
      exists (rec ++ delim ++ 10 :: pre), post.
      rewrite <- !app_assoc. reflexivity.
Qed.

(** C7.  A file that cannot be opened makes [readVisualWords] return
    [false] and is the only input that does; any other file makes it
    return [true] with the rows of the framing of the file appended:
    one row for every record of 128 floats followed by bytes up to and
    including a newline, none for a last piece shorter than a record.
    Every file has such a framing, so the loader always returns, and
    every appended row has 128 components of 4 bytes each that are a
    contiguous piece of the file. *)
Theorem C7_loader_reads_whole_records :
  forall bs rows c words,
    Framed bs rows ->
    readVisualWords None c words = Some (false, words) /\
    readVisualWords (Some bs) c words = Some (true, words ++ rows) /\
    (forall bs', exists rows', Framed bs' rows') /\
    Forall (fun row =>
              length row = 128%nat /\
              Forall (fun f => length f = 4%nat) row /\
              exists pre post, bs = pre ++ concat row ++ post) rows.
Proof.
  intros bs rows c words HF. split; [reflexivity|]. split; [|split].
  - unfold readVisualWords. cbn [ifs_open ifs_good ifs_rest negb].
    rewrite (readRecords_framed bs rows HF) by lia. reflexivity.
  - exact Framed_total.
  - exact (Framed_rows bs rows HF).
Qed.

Lemma C7_witness :
  readVisualWords (Some LoaderSample.file) [0; 0; 0; 0] [] =
    Some (true, [chunks4 128 LoaderSample.rec]).
Proof.
  refine (proj1 (proj2 (C7_loader_reads_whole_records LoaderSample.file
            [chunks4 128 LoaderSample.rec] [0; 0; 0; 0] [] _))).
  unfold LoaderSample.file.
  apply (Framed_record LoaderSample.rec [13] LoaderSample.partial []);
    [reflexivity | reflexivity |].
  apply Framed_short. apply Nat.ltb_lt. vm_compute. reflexivity.
Defined.

(** C4.  [init] goes on to load the index only with a vocabulary of
    exactly 1,000,000 rows: whenever the loader returns another number
    of rows, [init] stops in [exit(1)] or in the failed assertion, and
    whenever [init] reaches the index the vocabulary has 1,000,000 rows;
    [init] always ends in one of these ways. *)
Theorem C4_exact_row_count_or_fatal :
  forall file c ok words,
    readVisualWords file c [] = Some (ok, words) ->
    Z.of_nat (length words) <> 1000000 ->
    (init file c = Some (Exited 1) \/ init file c = Some AssertionFailed) /\
    (forall ws, init file c <> Some (IndexLoaded ws)) /\
    (forall file' c' ws,
        init file' c' = Some (IndexLoaded ws) ->
        Z.of_nat (length ws) = 1000000 /\
        readVisualWords file' c' [] = Some (true, ws)) /\
    (forall file' c', exists r, init file' c' = Some r).
Proof.
  intros file c ok words Hr Hn. split; [|split; [|split]].
  - unfold init. rewrite Hr. destruct ok; [|now left].
    apply Z.eqb_neq in Hn. rewrite Hn. now right.
  - intros ws. unfold init. rewrite Hr. destruct ok; [|discriminate].
    apply Z.eqb_neq in Hn. rewrite Hn. discriminate.
  - intros file' c' ws. unfold init.
    destruct (readVisualWords file' c' []) as [[[|] ws']|]; try discriminate.
    destruct (Z.of_nat (length ws') =? 1000000) eqn:E; [|discriminate].
    intros H. inversion H; subst. apply Z.eqb_eq in E. auto.
  - intros [bs|] c'.
    + destruct (Framed_total bs) as [rows HF].
      unfold init, readVisualWords. cbn [ifs_open ifs_good ifs_rest negb].
      rewrite (readRecords_framed bs rows HF) by lia.
      destruct (_ =? _); eexists; reflexivity.
    + eexists. reflexivity.
Qed.

Lemma C4_witness :
  init (Some LoaderSample.file) [0; 0; 0; 0] = Some AssertionFailed.
Proof.
  destruct (C4_exact_row_count_or_fatal (Some LoaderSample.file) [0; 0; 0; 0]
              true [chunks4 128 LoaderSample.rec]) as ([H | H] & _).
  - vm_compute. reflexivity.
  - vm_compute. discriminate.
  - vm_compute in H. discriminate H.
  - exact H.
Defined.

(* ------------------------------------------------------------------ *)
(** ** Single-precision arithmetic

    What the division and the multiplication of the library do on the
    mantissas, as far as the fixed-point encoding needs it: the quotient
    of two floats [v < d] is one of the two multiples of [2 ^ er] around
    [v / d], for an exponent [er <= -24], and it stays below one; the
    product by 65536 is exact. *)

Lemma digits2_size p : digits2_pos p = Pos.size p.
Proof. induction p; cbn; congruence. Qed.

Lemma digits2_bounds p :
  2 ^ (Z.pos (digits2_pos p) - 1) <= Z.pos p < 2 ^ Z.pos (digits2_pos p).
Proof.
  rewrite digits2_size. split.
  - pose proof (Pos.size_le p) as H.
    assert (E : Z.pos (2 ^ Pos.size p) = 2 * 2 ^ (Z.pos (Pos.size p) - 1)).
    { rewrite Pos2Z.inj_pow. rewrite <- Z.pow_succ_r by lia. f_equal. lia. }
    assert (Z.pos (2 ^ Pos.size p) <= Z.pos p~0) by (apply Pos2Z.pos_le_pos; exact H).
    lia.
  - pose proof (Pos.size_gt p) as H.
    apply Pos2Z.pos_lt_pos in H. now rewrite Pos2Z.inj_pow in H.
Qed.

Lemma iter_pos_nat {A} (f : A -> A) p : forall x,
  iter_pos f p x = Nat.iter (Pos.to_nat p) f x.
Proof.
  induction p as [p IH|p IH|]; intros x; cbn [iter_pos].
  - rewrite !IH. rewrite Pos2Nat.inj_xI.
    replace (S (2 * Pos.to_nat p)) with (Pos.to_nat p + (Pos.to_nat p + 1))%nat by lia.
    rewrite !Nat.iter_add. reflexivity.
  - rewrite !IH. rewrite Pos2Nat.inj_xO.
    replace (2 * Pos.to_nat p)%nat with (Pos.to_nat p + Pos.to_nat p)%nat by lia.
    rewrite Nat.iter_add. reflexivity.
  - reflexivity.
Qed.

Lemma shr_1_spec mrs :
  0 <= shr_m mrs ->
  shr_m (shr_1 mrs) = shr_m mrs / 2 /\
  (shr_r mrs = false -> shr_s mrs = false -> shr_m mrs mod 2 = 0 ->
   shr_r (shr_1 mrs) = false /\ shr_s (shr_1 mrs) = false).
Proof.
  destruct mrs as [m r s]. cbn [shr_m shr_r shr_s]. intros Hm.
  destruct m as [|[p|p|]|p]; try lia; cbn [shr_1 shr_m shr_r shr_s].
  - split; [reflexivity|]. intros -> ->. auto.
  - split; [rewrite Pos2Z.inj_xI; apply Z.div_unique with 1; lia|].
    intros _ _ H. rewrite Pos2Z.inj_xI in H.
    rewrite Z.add_comm, Z.mul_comm, Z.mod_add in H by lia. discriminate.
  - split; [rewrite Pos2Z.inj_xO; apply Z.div_unique with 0; lia|].
    intros -> ->. auto.
  - split; [reflexivity|]. intros _ _ H. discriminate.
Qed.

Lemma shr_iter_spec k : forall mrs,
  0 <= shr_m mrs ->
  shr_m (Nat.iter k shr_1 mrs) = shr_m mrs / 2 ^ Z.of_nat k /\
  (shr_r mrs = false -> shr_s mrs = false ->
   shr_m mrs mod 2 ^ Z.of_nat k = 0 ->
   shr_r (Nat.iter k shr_1 mrs) = false /\
   shr_s (Nat.iter k shr_1 mrs) = false).
Proof.
  induction k as [|k IH]; intros mrs Hm.
  - cbn. rewrite Z.div_1_r. auto.
  - rewrite Nat.iter_succ. destruct (IH mrs Hm) as [IHm IHe].
    assert (H0 : 0 <= shr_m (Nat.iter k shr_1 mrs)).
    { rewrite IHm. apply Z.div_pos; [lia | apply Z.pow_pos_nonneg; lia]. }
    destruct (shr_1_spec _ H0) as [Sm Se].
    rewrite Nat2Z.inj_succ, Z.pow_succ_r by lia.
    split.
    + assert (P : 0 < 2 ^ Z.of_nat k) by (apply Z.pow_pos_nonneg; lia).
      rewrite Sm, IHm, Z.div_div by lia. f_equal. lia.
    + intros Hr Hs Hmod.
      assert (P : 0 < 2 ^ Z.of_nat k) by (apply Z.pow_pos_nonneg; lia).
      assert (Hk : shr_m mrs mod 2 ^ Z.of_nat k = 0).
      { apply Z.mod_divide in Hmod; [|lia]. destruct Hmod as [c Hc].
        apply Z.mod_divide; [lia|]. exists (c * 2). lia. }
      destruct (IHe Hr Hs Hk) as [Hr' Hs'].
      apply Se; auto. rewrite IHm.
      apply Z.mod_divide in Hmod; [|lia]. destruct Hmod as [c Hc].
      rewrite Hc. replace (c * (2 * 2 ^ Z.of_nat k)) with ((c * 2) * 2 ^ Z.of_nat k) by lia.
      rewrite Z.div_mul by lia. apply Z.mod_mul. lia.
Qed.

Lemma Zdigits2_bounds m :
  0 < m -> 2 ^ (Zdigits2 m - 1) <= m < 2 ^ Zdigits2 m.
Proof.
  destruct m as [|p|p]; try lia. intros _. apply digits2_bounds.
Qed.

Lemma Zdigits2_nonneg m : 0 <= Zdigits2 m.
Proof. destruct m; cbn; lia. Qed.

Lemma Zdigits2_le m k : 0 <= k -> 0 <= m < 2 ^ k -> Zdigits2 m <= k.
Proof.
  intros Hk [H0 H].
  destruct (Z.eq_dec m 0) as [->|Hn]; [cbn; lia|].
  destruct (Zdigits2_bounds m ltac:(lia)) as [Hl _].
  destruct (Z_le_gt_dec (Zdigits2 m) k) as [|Hgt]; [assumption|exfalso].
  assert (2 ^ k <= 2 ^ (Zdigits2 m - 1)) by (apply Z.pow_le_mono_r; lia).
  lia.
Qed.

Lemma shr_spec m l e n :
  0 <= m ->
  snd (shr (shr_record_of_loc m l) e n) = e + Z.max n 0 /\
  shr_m (fst (shr (shr_record_of_loc m l) e n)) = m / 2 ^ Z.max n 0 /\
  (l = loc_Exact -> m mod 2 ^ Z.max n 0 = 0 ->
   loc_of_shr_record (fst (shr (shr_record_of_loc m l) e n)) = loc_Exact).
Proof.
  intros Hm.
  assert (Em : shr_m (shr_record_of_loc m l) = m) by (destruct l as [|[]]; reflexivity).
  destruct n as [|p|p]; cbn [shr fst snd Z.max].
  - rewrite Z.add_0_r, Z.div_1_r, Em. repeat split; auto.
    intros -> _. reflexivity.
  - rewrite iter_pos_nat.
    destruct (shr_iter_spec (Pos.to_nat p) (shr_record_of_loc m l)) as [Sm Se];
      [now rewrite Em|].
    rewrite positive_nat_Z, Em in *.
    replace (Z.max (Z.pos p) 0) with (Z.pos p) by lia.
    repeat split; auto.
    intros -> Hmod. destruct (Se eq_refl eq_refl Hmod) as [Hr Hs].
    destruct (Nat.iter _ _ _) as [m' r' s']. cbn in Hr, Hs. subst. reflexivity.
  - replace (Z.max (Z.neg p) 0) with 0 by lia.
    rewrite Z.add_0_r, Z.div_1_r, Em. repeat split; auto.
    intros -> _. reflexivity.
Qed.

Lemma round_nearest_even_spec m l :
  m <= round_nearest_even m l <= m + 1 /\
  (l = loc_Exact -> round_nearest_even m l = m).
Proof.
  split.
  - destruct l as [|[]]; cbn; try lia. destruct (Z.even m); lia.
  - intros ->. reflexivity.
Qed.

Lemma binary_round_aux_spec m e l :
  0 <= m ->
  let e1 := Z.max e (fexp F32.prec F32.emax (Zdigits2 m + e)) in
  let m1 := m / 2 ^ (e1 - e) in
  exists m2 m3 e3,
    m1 <= m2 <= m1 + 1 /\
    (l = loc_Exact -> m mod 2 ^ (e1 - e) = 0 -> m2 = m1) /\
    ((m3 = m2 /\ e3 = e1) \/ (m2 = 2 * m3 /\ e3 = e1 + 1)) /\
    0 <= m3 < 2 ^ 24 /\ -149 <= e3 /\
    binary_round_aux F32.prec F32.emax false m e l = F32.of_mantissa m3 e3.
Proof.
  intros Hm e1 m1.
  set (n := fexp F32.prec F32.emax (Zdigits2 m + e) - e).
  assert (He1 : e1 - e = Z.max n 0) by (subst e1 n; lia).
  assert (Hf : -149 <= fexp F32.prec F32.emax (Zdigits2 m + e) /\
               Zdigits2 m + e - 24 <= fexp F32.prec F32.emax (Zdigits2 m + e))
    by (unfold fexp, emin, F32.prec, F32.emax; lia).
  assert (P : 0 < 2 ^ (e1 - e)) by (apply Z.pow_pos_nonneg; lia).
  assert (Hm1 : 0 <= m1 < 2 ^ 24).
  { subst m1. split; [apply Z.div_pos; lia|].
    apply Z.div_lt_upper_bound; [lia|].
    destruct (Z.eq_dec m 0) as [->|Hn]; [lia|].
    destruct (Zdigits2_bounds m ltac:(lia)) as [_ Hu].
    rewrite <- Z.pow_add_r by lia.
    assert (2 ^ Zdigits2 m <= 2 ^ (e1 - e + 24)) by (apply Z.pow_le_mono_r; lia).
    lia. }
  unfold binary_round_aux, shr_fexp. fold n.
  destruct (shr_spec m l e n Hm) as (Se & Sm & Sx).
  destruct (shr (shr_record_of_loc m l) e n) as [mrs' e'].
  cbn [fst snd] in Se, Sm, Sx.
  rewrite <- He1 in Sm, Sx, Se. fold m1 in Sm. rewrite Sm.
  replace e' with e1 by lia.
  set (m2 := round_nearest_even m1 (loc_of_shr_record mrs')).
  destruct (round_nearest_even_spec m1 (loc_of_shr_record mrs')) as [Hr Hx].
  fold m2 in Hr, Hx.
  set (n' := fexp F32.prec F32.emax (Zdigits2 m2 + e1) - e1).
  assert (Hm2 : 0 <= m2) by lia.
  destruct (shr_spec m2 loc_Exact e1 n' Hm2) as (Se2 & Sm2 & _).
  destruct (shr (shr_record_of_loc m2 loc_Exact) e1 n') as [mrs'' e''].
  cbn [fst snd] in Se2, Sm2.
  exists m2, (shr_m mrs''), e''.
  assert (Hcase : (n' <= 0 /\ m2 < 2 ^ 24) \/ (n' = 1 /\ m2 = 2 ^ 24)).
  { destruct (Z.eq_dec m2 (2 ^ 24)) as [E|NE].
    - right. split; [|assumption]. subst n'. rewrite E.
      change (Zdigits2 (2 ^ 24)) with 25. unfold fexp, emin, F32.prec, F32.emax. lia.
    - left. split; [|lia]. subst n'.
      assert (Zdigits2 m2 <= 24) by (apply Zdigits2_le; lia).
      unfold fexp, emin, F32.prec, F32.emax. lia. }
  split; [exact Hr|]. split.
  { intros Hl Hmod. apply Hx. apply Sx; assumption. }
  destruct Hcase as [[Hn' Hlt] | [Hn' Heq]].
  - replace (Z.max n' 0) with 0 in * by lia.
    rewrite Z.div_1_r in Sm2. rewrite Sm2.
    split; [left; split; [reflexivity | lia]|].
    split; [lia|]. split; [lia|]. reflexivity.
  - rewrite Hn' in *. cbn [Z.max] in Sm2, Se2. change (Z.max 1 0) with 1 in *.
    rewrite Sm2, Heq. change (2 ^ 24 / 2 ^ 1) with (2 ^ 23).
    split; [right; split; [reflexivity | lia]|].
    split; [lia|]. split; [lia|]. reflexivity.
Qed.

Lemma new_location_exact nb : new_location nb 0 = loc_Exact.
Proof.
  unfold new_location, new_location_even, new_location_odd.
  destruct (Z.even nb); reflexivity.
Qed.

Lemma div_core_spec (m1 m2 : positive) (e1 e2 : Z) :
  let e' := Z.min (fexp F32.prec F32.emax (Zdigits2 (Z.pos m1) + e1 - (Zdigits2 (Z.pos m2) + e2)))
                  (e1 - e2) in
  let s := e1 - e2 - e' in
  exists l,
    SFdiv_core_binary F32.prec F32.emax (Z.pos m1) e1 (Z.pos m2) e2 =
      (Z.pos m1 * 2 ^ s / Z.pos m2, e', l) /\
    ((Z.pos m1 * 2 ^ s) mod Z.pos m2 = 0 -> l = loc_Exact).
Proof.
  intros e' s. unfold SFdiv_core_binary. fold e'. fold s.
  assert (Hs : 0 <= s) by (subst s e'; lia).
  clearbody s. clearbody e'.
  set (m' := match s with Z.pos _ => Z.shiftl (Z.pos m1) s | 0 => Z.pos m1 | Z.neg _ => 0 end).
  assert (Hm' : m' = Z.pos m1 * 2 ^ s).
  { subst m'. destruct s as [|p|p]; try lia.
    now rewrite Z.shiftl_mul_pow2 by lia. }
  rewrite <- Hm'.
  pose proof (Z_div_mod_full m' (Z.pos m2) ltac:(lia)) as H.
  unfold Z.div, Z.modulo.
  destruct (Z.div_eucl m' (Z.pos m2)) as [q r].
  eexists. split; [reflexivity|].
  intros ->. apply new_location_exact.
Qed.

Lemma gap_below (m1 m2 a b : Z) :
  0 < m1 < 2 ^ 24 -> 0 < m2 < 2 ^ 24 -> 0 <= a -> 0 <= b ->
  m1 * 2 ^ a < m2 * 2 ^ b ->
  m2 * 2 ^ b <= 2 ^ 24 * (m2 * 2 ^ b - m1 * 2 ^ a).
Proof.
  intros H1 H2 Ha Hb Hlt.
  destruct (Z_le_gt_dec b a) as [Hba | Hab].
  - replace a with ((a - b) + b) in * by lia.
    rewrite Z.pow_add_r in * by lia.
    assert (P : 0 < 2 ^ b) by (apply Z.pow_pos_nonneg; lia).
    assert (Q : 0 < 2 ^ (a - b)) by (apply Z.pow_pos_nonneg; lia).
    set (X := m1 * 2 ^ (a - b)) in *.
    assert (HX : X < m2) by nia.
    replace (m1 * (2 ^ (a - b) * 2 ^ b)) with (X * 2 ^ b) in * by (subst X; ring).
    nia.
  - replace b with ((b - a) + a) in * by lia.
    rewrite Z.pow_add_r in * by lia.
    assert (P : 0 < 2 ^ a) by (apply Z.pow_pos_nonneg; lia).
    assert (Q : 0 < 2 ^ (b - a)) by (apply Z.pow_pos_nonneg; lia).
    set (X := m2 * 2 ^ (b - a)) in *.
    replace (m2 * (2 ^ (b - a) * 2 ^ a)) with (X * 2 ^ a) in * by (subst X; ring).
    assert (HX : m1 < X) by nia.
    assert (2 ^ 24 * m1 <= (2 ^ 24 - 1) * X) by nia.
    nia.
Qed.

Lemma quotient_spec (m1 m2 : positive) (e1 e2 K : Z) :
  Z.pos m1 < 2 ^ 24 -> Z.pos m2 < 2 ^ 24 ->
  0 <= e1 + K -> 0 <= e2 + K ->
  Z.pos m1 * 2 ^ (e1 + K) < Z.pos m2 * 2 ^ (e2 + K) ->
  exists m3 e3,
    SFdiv F32.prec F32.emax (S754_finite false m1 e1) (S754_finite false m2 e2) =
      F32.of_mantissa m3 e3 /\
    0 <= m3 < 2 ^ 24 /\ -149 <= e3 <= -23 /\
    0 <= m3 / 2 ^ (- e3 - 16) < 65536 /\
    (m3 / 2 ^ (- e3 - 16) - 1) * (Z.pos m2 * 2 ^ (e2 + K))
      <= 65536 * (Z.pos m1 * 2 ^ (e1 + K))
      < (m3 / 2 ^ (- e3 - 16) + 1) * (Z.pos m2 * 2 ^ (e2 + K)).
Proof.
  intros Hm1 Hm2 Ha Hb Hlt.
  destruct (div_core_spec m1 m2 e1 e2) as (l & Hcore & Hexact).
  set (e' := Z.min (fexp F32.prec F32.emax (Zdigits2 (Z.pos m1) + e1 - (Zdigits2 (Z.pos m2) + e2)))
                   (e1 - e2)) in *.
  set (s := e1 - e2 - e') in *.
  set (D := Z.pos m1 * 2 ^ s) in *.
  set (A := 2 ^ (e2 + K)) in *.
  assert (HA : 0 < A) by (apply Z.pow_pos_nonneg; lia).
  assert (Hs : 0 <= s) by (subst s e'; lia).
  assert (HS : 0 < 2 ^ s) by (apply Z.pow_pos_nonneg; lia).
  assert (HD : 0 < D) by (subst D; nia).
  (* the exponent of the quotient *)
  assert (He' : e' <= -24).
  { destruct (Zdigits2_bounds (Z.pos m1) ltac:(lia)) as [L1 _].
    destruct (Zdigits2_bounds (Z.pos m2) ltac:(lia)) as [_ U2].
    pose proof (Zdigits2_nonneg (Z.pos m2)) as N2.
    assert (N1 : 1 <= Zdigits2 (Z.pos m1)) by (cbn; lia).
    assert (Hp : 2 ^ (Zdigits2 (Z.pos m1) - 1 + (e1 + K)) <
                 2 ^ (Zdigits2 (Z.pos m2) + (e2 + K))).
    { rewrite (Z.pow_add_r 2 (Zdigits2 (Z.pos m1) - 1) (e1 + K)),
              (Z.pow_add_r 2 (Zdigits2 (Z.pos m2)) (e2 + K)) by lia.
      assert (P1 : 0 < 2 ^ (e1 + K)) by (apply Z.pow_pos_nonneg; lia).
      fold A.
      assert (T1 : 2 ^ (Zdigits2 (Z.pos m1) - 1) * 2 ^ (e1 + K)
                   <= Z.pos m1 * 2 ^ (e1 + K))
        by (apply Z.mul_le_mono_nonneg_r; lia).
      assert (T2 : Z.pos m2 * A < 2 ^ Zdigits2 (Z.pos m2) * A)
        by (apply Z.mul_lt_mono_pos_r; lia).
      lia. }
    apply Z.pow_lt_mono_r_iff in Hp; [|lia|lia].
    subst e'. unfold fexp, emin, F32.prec, F32.emax. lia. }
  set (E := 2 ^ (- e')).
  assert (HE : 0 < E) by (apply Z.pow_pos_nonneg; lia).
  assert (HVE : Z.pos m1 * 2 ^ (e1 + K) * E = D * A).
  { subst D A E. rewrite <- !Z.mul_assoc, <- !Z.pow_add_r by lia.
    do 2 f_equal. subst s. lia. }
  assert (KF : D < Z.pos m2 * E) by nia.
  set (q := D / Z.pos m2) in *.
  assert (Hq : 0 <= q /\ q * Z.pos m2 <= D < (q + 1) * Z.pos m2).
  { subst q. split; [apply Z.div_pos; lia|].
    pose proof (Z.div_mod D (Z.pos m2) ltac:(lia)).
    pose proof (Z.mod_pos_bound D (Z.pos m2) ltac:(lia)). nia. }
  assert (HqE : q < E) by nia.
  unfold SFdiv. rewrite Hcore. cbn [xorb].
  destruct (binary_round_aux_spec q e' l (proj1 Hq))
    as (mr & m3 & e3 & Hr & Hx & Hnorm & Hm3 & He3 & Hbra).
  set (er := Z.max e' (fexp F32.prec F32.emax (Zdigits2 q + e'))) in *.
  set (nn := er - e') in *.
  assert (Hnn : 0 <= nn) by (subst nn er; lia).
  assert (Her : er <= -24).
  { assert (Zdigits2 q <= - e') by (apply Zdigits2_le; subst E; lia).
    subst er. unfold fexp, emin, F32.prec, F32.emax. lia. }
  set (N := 2 ^ nn) in *.
  assert (HN : 0 < N) by (apply Z.pow_pos_nonneg; lia).
  set (B := Z.pos m2 * N).
  assert (HB : 0 < B) by (subst B; nia).
  set (F := q / N) in *.
  assert (HF : F = D / B).
  { subst F q B. rewrite Z.div_div by lia. reflexivity. }
  assert (HFB : F * B <= D < (F + 1) * B).
  { rewrite HF. pose proof (Z.div_mod D B ltac:(lia)).
    pose proof (Z.mod_pos_bound D B ltac:(lia)). nia. }
  set (c := - 16 - er).
  assert (Hc : 8 <= c) by (subst c; lia).
  set (C := 2 ^ c).
  assert (HC : 0 < C) by (apply Z.pow_pos_nonneg; lia).
  assert (HEN : E = N * (C * 65536)).
  { subst E N C. change 65536 with (2 ^ 16). rewrite <- !Z.pow_add_r by lia.
    f_equal. subst c nn. lia. }
  (* the quotient stays below one *)
  assert (Hone : mr < C * 65536).
  { assert (HFlt : F < C * 65536).
    { rewrite HF. apply Z.div_lt_upper_bound; [lia|]. subst B. nia. }
    destruct (Z_le_gt_dec er (-25)) as [Hlow | Hhi].
    - assert (2 ^ 25 <= C * 65536).
      { subst C. change 65536 with (2 ^ 16). rewrite <- Z.pow_add_r by lia.
        apply Z.pow_le_mono_r; subst c; lia. }
      assert (F < 2 ^ 24).
      { subst F. apply Z.div_lt_upper_bound; [lia|].
        destruct (Z.eq_dec q 0) as [->|Hq0]; [nia|].
        destruct (Zdigits2_bounds q ltac:(lia)) as [_ Uq].
        assert (T : 2 ^ Zdigits2 q <= 2 ^ (nn + 24)).
        { apply Z.pow_le_mono_r; [lia|]. subst nn er.
          unfold fexp, emin, F32.prec, F32.emax in *. lia. }
        rewrite (Z.pow_add_r 2 nn 24) in T by lia. fold N in T. lia. }
      lia.
    - assert (Eer : er = -24) by lia.
      assert (EC : C * 65536 = 2 ^ 24).
      { subst C c. rewrite Eer. reflexivity. }
      rewrite EC in *.
      destruct (Z_lt_ge_dec mr (2 ^ 24)) as [|Hge]; [assumption|exfalso].
      assert (HFe : F = 2 ^ 24 - 1) by lia.
      pose proof (gap_below (Z.pos m1) (Z.pos m2) (e1 + K) (e2 + K)
                    ltac:(lia) ltac:(lia) Ha Hb Hlt) as G.
      fold A in G.
      assert (HDB : D = (2 ^ 24 - 1) * B).
      { assert (D <= (2 ^ 24 - 1) * B); [|nia].
        assert (G' : Z.pos m2 * A * E <=
                     2 ^ 24 * (Z.pos m2 * A * E - Z.pos m1 * 2 ^ (e1 + K) * E)) by nia.
        rewrite HVE in G'. rewrite HEN in G'. subst B. nia. }
      assert (X1 : D mod Z.pos m2 = 0).
      { rewrite HDB. subst B.
        replace ((2 ^ 24 - 1) * (Z.pos m2 * N)) with ((2 ^ 24 - 1) * N * Z.pos m2) by ring.
        apply Z.mod_mul. lia. }
      assert (X2 : q mod N = 0).
      { subst q. rewrite HDB. subst B.
        replace ((2 ^ 24 - 1) * (Z.pos m2 * N)) with ((2 ^ 24 - 1) * N * Z.pos m2) by ring.
        rewrite Z.div_mul by lia. apply Z.mod_mul. lia. }
      specialize (Hx (Hexact X1) X2). lia. }
  (* the integer part of 65536 times the quotient *)
  assert (Hn : m3 / 2 ^ (- e3 - 16) = mr / C /\ e3 <= -23).
  { destruct Hnorm as [[-> ->] | [-> ->]].
    - split; [|lia]. subst C c. do 2 f_equal. lia.
    - split; [|lia]. subst C c.
      replace (- 16 - er) with (1 + (- (er + 1) - 16)) by lia.
      rewrite Z.pow_add_r by lia. change (2 ^ 1) with 2.
      assert (0 < 2 ^ (- (er + 1) - 16)) by (apply Z.pow_pos_nonneg; lia).
      rewrite Z.div_mul_cancel_l by lia. reflexivity. }
  destruct Hn as [Hn He3']. exists m3, e3. rewrite Hn.
  set (n := mr / C).
  assert (HnC : n * C <= mr < (n + 1) * C).
  { subst n. pose proof (Z.div_mod mr C ltac:(lia)).
    pose proof (Z.mod_pos_bound mr C ltac:(lia)). nia. }
  assert (Hmr0 : 0 <= mr).
  { assert (0 <= F) by (subst F; apply Z.div_pos; lia). lia. }
  split; [exact Hbra|]. split; [exact Hm3|]. split; [lia|].
  split.
  - split; [subst n; apply Z.div_pos; lia|].
    subst n. apply Z.div_lt_upper_bound; lia.
  - assert (HW : 65536 * (Z.pos m1 * 2 ^ (e1 + K)) * (N * C) = D * A) by nia.
    assert (L : (n - 1) * (B * C) <= D) by nia.
    assert (U : D < (n + 1) * (B * C)) by nia.
    assert (NC : 0 < N * C) by nia.
    subst B. split.
    + apply Z.mul_le_mono_pos_r with (p := N * C); [lia|]. rewrite HW.
      replace ((n - 1) * (Z.pos m2 * A) * (N * C))
        with ((n - 1) * (Z.pos m2 * N * C) * A) by ring.
      apply Z.mul_le_mono_nonneg_r; lia.
    + apply Z.mul_lt_mono_pos_r with (p := N * C); [lia|]. rewrite HW.
      replace ((n + 1) * (Z.pos m2 * A) * (N * C))
        with ((n + 1) * (Z.pos m2 * N * C) * A) by ring.
      apply Z.mul_lt_mono_pos_r; lia.
Qed.

Lemma scale_spec m3 e3 :
  0 <= m3 < 2 ^ 24 -> -149 <= e3 <= -23 ->
  exists p,
    SFmul F32.prec F32.emax (F32.of_mantissa m3 e3) (S754_finite false 8388608 (-7)) = p /\
    F32.is_finite p = true /\
    F32.trunc p = m3 / 2 ^ (- e3 - 16) /\
    match p with S754_finite s _ e => s = false /\ e < 0 | _ => True end.
Proof.
  intros Hm He.
  destruct m3 as [|p|p]; [| |lia].
  - cbn. eexists. repeat split.
  - unfold F32.of_mantissa.
    replace (e3 <=? F32.emax - F32.prec) with true
      by (symmetry; apply Z.leb_le; unfold F32.emax, F32.prec; lia).
    cbn [SFmul xorb].
    set (m := Z.pos (p * 8388608)).
    assert (Em : m = Z.pos p * 2 ^ 23) by (subst m; rewrite Pos2Z.inj_mul; reflexivity).
    assert (Hm0 : 0 <= m) by lia.
    destruct (binary_round_aux_spec m (e3 + -7) loc_Exact Hm0)
      as (m2 & m4 & e4 & Hr & Hx & Hnorm & Hm4 & He4 & Hbra).
    set (e1 := Z.max (e3 + -7) (fexp F32.prec F32.emax (Zdigits2 m + (e3 + -7)))) in *.
    set (sh := e1 - (e3 + -7)) in *.
    assert (Hsh : 0 <= sh <= 23).
    { assert (Zdigits2 m <= 47).
      { apply Zdigits2_le; [lia|]. split; [lia|]. rewrite Em.
        change (2 ^ 47) with (2 ^ 24 * 2 ^ 23). nia. }
      subst sh e1. unfold fexp, emin, F32.prec, F32.emax. lia. }
    set (T := 2 ^ (23 - sh)).
    assert (HT : 0 < T) by (apply Z.pow_pos_nonneg; lia).
    assert (HS : 0 < 2 ^ sh) by (apply Z.pow_pos_nonneg; lia).
    assert (Esplit : m = Z.pos p * T * 2 ^ sh).
    { rewrite Em. subst T. rewrite <- Z.mul_assoc, <- Z.pow_add_r by lia.
      do 2 f_equal. lia. }
    assert (Em2 : m2 = Z.pos p * T).
    { rewrite Hx; [|reflexivity|].
      - rewrite Esplit. apply Z.div_mul. lia.
      - rewrite Esplit. apply Z.mod_mul. lia. }
    set (U := 2 ^ (- e3 - 16)).
    assert (HU : 0 < U) by (apply Z.pow_pos_nonneg; lia).
    rewrite Hbra. eexists. split; [reflexivity|].
    assert (Hm4' : 0 < m4) by (destruct Hnorm as [[-> _] | [Hh _]]; nia).
    assert (He4' : e4 <= -6) by (destruct Hnorm as [[_ ->] | [_ ->]]; lia).
    destruct m4 as [|p4|p4]; try lia.
    unfold F32.of_mantissa.
    replace (e4 <=? F32.emax - F32.prec) with true
      by (symmetry; apply Z.leb_le; unfold F32.emax, F32.prec; lia).
    split; [reflexivity|]. split; [|split; [reflexivity | lia]].
    cbn [F32.trunc cond_Zopp].
    replace (0 <=? e4) with false by (symmetry; apply Z.leb_gt; lia).
    destruct Hnorm as [[E4 ->] | [E4 ->]].
    + rewrite E4, Em2.
      replace (- e1) with ((- e3 - 16) + (23 - sh)) by (subst sh; lia).
      rewrite Z.pow_add_r by lia. fold T. fold U.
      apply Z.div_mul_cancel_r; lia.
    + assert (H2 : 0 < 2 ^ (- (e1 + 1))) by (apply Z.pow_pos_nonneg; lia).
      rewrite <- (Z.div_mul_cancel_l (Z.pos p4) (2 ^ (- (e1 + 1))) 2) by lia.
      rewrite <- E4, Em2.
      replace (2 * 2 ^ (- (e1 + 1))) with (U * T).
      * apply Z.div_mul_cancel_r; lia.
      * subst U T. rewrite <- Z.pow_add_r by lia.
        rewrite <- Z.pow_succ_r by lia. f_equal. subst sh. lia.
Qed.

(** ** The fixed-point encoding *)

Lemma valid_bounds s m e :
  F32.valid (S754_finite s m e) = true ->
  Z.pos m < 2 ^ 24 /\ -149 <= e <= 104.
Proof.
  unfold F32.valid, valid_binary, bounded, canonical_mantissa.
  intros H. apply andb_true_iff in H. destruct H as [Hc He].
  apply Z.eqb_eq in Hc. apply Z.leb_le in He.
  unfold fexp, emin, F32.prec, F32.emax in *.
  destruct (digits2_bounds m) as [_ Hu].
  assert (2 ^ Z.pos (digits2_pos m) <= 2 ^ 24) by (apply Z.pow_le_mono_r; lia).
  lia.
Qed.

Lemma toQ_scaled m e :
  -149 <= e ->
  (F32.toQ (S754_finite false m e) ==
   (Z.pos m * 2 ^ (e + 149)) # (2 ^ 149)%positive)%Q.
Proof.
  intros He. unfold F32.toQ, Qeq. cbn [cond_Zopp Qnum Qden].
  assert (P149 : Z.pos (2 ^ 149) = 2 ^ 149) by reflexivity.
  destruct (0 <=? e) eqn:E.
  - apply Z.leb_le in E. cbn [inject_Z Qnum Qden]. rewrite P149.
    rewrite Z.pow_add_r by lia. ring.
  - apply Z.leb_gt in E. cbn [Qnum Qden]. rewrite P149.
    assert (Hp : 0 < 2 ^ (- e)) by (apply Z.pow_pos_nonneg; lia).
    rewrite Z2Pos.id by lia.
    rewrite <- Z.mul_assoc, <- Z.pow_add_r by lia.
    do 2 f_equal. lia.
Qed.

Lemma trunc_Qfloor p :
  match p with S754_finite s _ _ => s = false | _ => True end ->
  F32.trunc p = Qfloor (F32.toQ p).
Proof.
  destruct p as [s| s| |s m e]; try reflexivity.
  intros ->. unfold F32.trunc, F32.toQ. cbn [cond_Zopp].
  destruct (0 <=? e) eqn:E.
  - now rewrite Qfloor_Z.
  - apply Z.leb_gt in E. unfold Qfloor.
    assert (Hp : 0 < 2 ^ (- e)) by (apply Z.pow_pos_nonneg; lia).
    now rewrite Z2Pos.id by lia.
Qed.

Lemma of_int_65536 : F32.of_int (Z.shiftl 1 16) = S754_finite false 8388608 (-7).
Proof. vm_compute. reflexivity. Qed.

(** The encoding of a positive [v] below [d], on the mantissas. *)
Lemma fixed16_core (m1 m2 : positive) (e1 e2 : Z) :
  Z.pos m1 < 2 ^ 24 -> Z.pos m2 < 2 ^ 24 -> -149 <= e1 -> -149 <= e2 ->
  Z.pos m1 * 2 ^ (e1 + 149) < Z.pos m2 * 2 ^ (e2 + 149) ->
  let v := S754_finite false m1 e1 in
  let d := S754_finite false m2 e2 in
  0 <= fixed16 v d < 65536 /\
  fixed16 v d = Qfloor (F32.toQ (scaled16 v d)) /\
  (fixed16 v d - 1) * (Z.pos m2 * 2 ^ (e2 + 149))
    <= 65536 * (Z.pos m1 * 2 ^ (e1 + 149))
    < (fixed16 v d + 1) * (Z.pos m2 * 2 ^ (e2 + 149)).
Proof.
  intros H1 H2 He1 He2 Hlt v d.
  destruct (quotient_spec m1 m2 e1 e2 149 H1 H2 ltac:(lia) ltac:(lia) Hlt)
    as (m3 & e3 & Hdiv & Hm3 & He3 & Hn & Hb).
  destruct (scale_spec m3 e3 Hm3 He3) as (p & Hmul & Hfin & Htr & Hsign).
  assert (Hs : scaled16 v d = p).
  { unfold scaled16, F32.div, F32.mul. rewrite of_int_65536.
    subst v d. rewrite Hdiv. exact Hmul. }
  assert (Hfix : fixed16 v d = m3 / 2 ^ (- e3 - 16)).
  { unfold fixed16, F32.to_uint16. rewrite Hs, Hfin, Htr.
    replace (- 2 ^ 31 <=? m3 / 2 ^ (- e3 - 16)) with true
      by (symmetry; apply Z.leb_le; lia).
    replace (m3 / 2 ^ (- e3 - 16) <? 2 ^ 31) with true
      by (symmetry; apply Z.ltb_lt; lia).
    cbn [andb]. unfold to_u16. apply Z.mod_small. lia. }
  rewrite Hfix. split; [exact Hn|]. split; [|exact Hb].
  rewrite Hs, <- Htr. apply trunc_Qfloor.
  destruct p as [s| s| |s m e]; try exact I. apply Hsign.
Qed.

Lemma toQ_negative m e : (F32.toQ (S754_finite true m e) < 0)%Q.
Proof.
  unfold F32.toQ, Qlt. cbn [cond_Zopp].
  destruct (0 <=? e) eqn:E; cbn [inject_Z Qnum Qden].
  - apply Z.leb_le in E.
    assert (0 < 2 ^ e) by (apply Z.pow_pos_nonneg; lia). nia.
  - lia.
Qed.

Lemma fixed16_bounds v d :
  F32.valid v = true -> F32.valid d = true ->
  F32.is_finite v = true -> F32.is_finite d = true ->
  (0 <= F32.toQ v)%Q -> (F32.toQ v < F32.toQ d)%Q ->
  0 <= fixed16 v d < 65536 /\
  fixed16 v d = Qfloor (F32.toQ (scaled16 v d)) /\
  ((inject_Z (fixed16 v d) - 1) * F32.toQ d <= 65536 * F32.toQ v)%Q /\
  (65536 * F32.toQ v < (inject_Z (fixed16 v d) + 1) * F32.toQ d)%Q.
Proof.
  intros Vv Vd Fv Fd H0 Hlt.
  destruct d as [sd| sd| |sd m2 e2]; try discriminate.
  { exfalso. cbn [F32.toQ] in Hlt. apply (Qlt_irrefl 0).
    eapply Qle_lt_trans; eassumption. }
  destruct sd.
  { exfalso. pose proof (toQ_negative m2 e2) as Hn. apply (Qlt_irrefl 0).
    eapply Qle_lt_trans; [exact H0|]. eapply Qlt_trans; eassumption. }
  destruct (valid_bounds _ _ _ Vd) as [Hm2 He2].
  assert (Hd : (0 < F32.toQ (S754_finite false m2 e2))%Q)
    by (eapply Qle_lt_trans; eassumption).
  destruct v as [sv| sv| |sv m1 e1]; try discriminate.
  - assert (Hs : scaled16 (S754_zero sv) (S754_finite false m2 e2) =
                 S754_zero sv).
    { unfold scaled16. rewrite of_int_65536. now destruct sv. }
    assert (Hf : fixed16 (S754_zero sv) (S754_finite false m2 e2) = 0).
    { unfold fixed16. now rewrite Hs. }
    rewrite Hf, Hs. change (F32.toQ (S754_zero sv)) with 0%Q in *.
    split; [lia|]. split; [reflexivity|].
    clear Hlt Hs Hf.
    remember (F32.toQ (S754_finite false m2 e2)) as dq eqn:Edq. clear Edq.
    destruct dq as [dn dd]. unfold Qlt, Qle in *. cbn in *. destruct dn; split; lia.
  - destruct sv.
    { exfalso. pose proof (toQ_negative m1 e1) as Hn. apply (Qlt_irrefl 0).
      eapply Qle_lt_trans; eassumption. }
    destruct (valid_bounds _ _ _ Vv) as [Hm1 He1].
    assert (Hint : Z.pos m1 * 2 ^ (e1 + 149) < Z.pos m2 * 2 ^ (e2 + 149)).
    { rewrite (toQ_scaled m1 e1), (toQ_scaled m2 e2) in Hlt by lia.
      unfold Qlt in Hlt. cbn [Qnum Qden] in Hlt.
      apply Z.mul_lt_mono_pos_r in Hlt; [exact Hlt | reflexivity]. }
    destruct (fixed16_core m1 m2 e1 e2 Hm1 Hm2 ltac:(lia) ltac:(lia) Hint)
      as (Hr & Hfl & Hlo & Hhi).
    split; [exact Hr|]. split; [exact Hfl|].
    set (n := fixed16 (S754_finite false m1 e1) (S754_finite false m2 e2)) in *.
    rewrite (toQ_scaled m1 e1), (toQ_scaled m2 e2) by lia.
    set (V := Z.pos m1 * 2 ^ (e1 + 149)) in *.
    set (W := Z.pos m2 * 2 ^ (e2 + 149)) in *.
    set (P := (2 ^ 149)%positive).
    unfold Qle, Qlt, Qmult, Qminus, Qplus, Qopp, inject_Z. cbn [Qnum Qden].
    split.
    + rewrite !Pos.mul_1_l, !Z.mul_1_r.
      replace ((n + - (1)) * W * Z.pos P) with ((n - 1) * W * Z.pos P) by ring.
      replace (65536 * V * Z.pos P) with (65536 * V * Z.pos P) by ring.
      apply Z.mul_le_mono_nonneg_r; [lia | exact Hlo].
    + rewrite !Pos.mul_1_l, !Z.mul_1_r.
      apply Z.mul_lt_mono_pos_r; [lia | exact Hhi].
Qed.

Lemma decode16_bound (n : Z) (dq vq : Q) :
  ((inject_Z n - 1) * dq <= 65536 * vq)%Q ->
  (65536 * vq <= (inject_Z n + 1) * dq)%Q ->
  (Qabs (decode16 n dq - vq) <= dq / 65536)%Q.
Proof.
  unfold decode16. generalize (inject_Z n). intros N H1 H2.
  apply Qabs_Qle_condition.
  assert (E1 : ((N - 1) * dq == N * dq - dq)%Q) by ring.
  assert (E3 : ((N + 1) * dq == N * dq + dq)%Q) by ring.
  assert (E2 : (N / 65536 * dq - vq ==
                (N * dq - 65536 * vq) * (1 # 65536))%Q) by field.
  assert (E4 : (dq / 65536 == dq * (1 # 65536))%Q) by field.
  rewrite E1 in H1. rewrite E3 in H2. rewrite E2, E4.
  generalize dependent (N * dq)%Q. intros X H1 H2.
  split.
  - setoid_replace (- (dq * (1 # 65536)))%Q with ((- dq) * (1 # 65536))%Q
      by ring.
    apply Qmult_le_compat_r; [lra | discriminate].
  - apply Qmult_le_compat_r; [lra | discriminate].
Qed.

(** The widths and heights that pass the size checks, and 360, are
    floats of their own. *)
Lemma extents_checked :
  forallb (fun w => F32.valid (F32.of_int w) &&
                    F32.is_finite (F32.of_int w) &&
                    Qeq_bool (F32.toQ (F32.of_int w)) (inject_Z w))
          (map Z.of_nat (seq 200 801)) = true.
Proof. vm_compute. reflexivity. Qed.

Lemma of_int_extent w :
  200 <= w <= 1000 ->
  F32.valid (F32.of_int w) = true /\
  F32.is_finite (F32.of_int w) = true /\
  (F32.toQ (F32.of_int w) == inject_Z w)%Q.
Proof.
  intros Hw. pose proof extents_checked as H.
  rewrite forallb_forall in H. specialize (H w).
  assert (Hin : In w (map Z.of_nat (seq 200 801))).
  { apply in_map_iff. exists (Z.to_nat w). split; [lia|].
    apply in_seq. lia. }
  apply H in Hin. apply andb_true_iff in Hin. destruct Hin as [Hin Hq].
  apply andb_true_iff in Hin. destruct Hin as [Hv Hf].
  apply Qeq_bool_iff in Hq. auto.
Qed.

(** The encoding of a coordinate against its extent: no wrap-around, the
    integer part of the single-precision product, and a decoded value
    within one step of the coordinate. *)
Lemma fixed16_extent v full :
  200 <= full <= 1000 ->
  within v full ->
  0 <= fixed16 v (F32.of_int full) < 65536 /\
  fixed16 v (F32.of_int full) =
    Qfloor (F32.toQ (scaled16 v (F32.of_int full))) /\
  (Qabs (decode16 (fixed16 v (F32.of_int full)) (inject_Z full) - F32.toQ v)
   <= inject_Z full / 65536)%Q.
Proof.
  intros Hfull (Vv & Fv & H0 & Hlt).
  destruct (of_int_extent full Hfull) as (Vd & Fd & Ed).
  rewrite <- Ed in Hlt.
  destruct (fixed16_bounds v (F32.of_int full) Vv Vd Fv Fd H0 Hlt)
    as (Hr & Hfl & Hlo & Hhi).
  split; [exact Hr|]. split; [exact Hfl|].
  pose proof (decode16_bound _ _ _ Hlo (Qlt_le_weak _ _ Hhi)) as Hb.
  unfold decode16 in *. rewrite Ed in Hb. exact Hb.
Qed.

Lemma keypointHits_fields knnSearch imageId w h kd hit :
  In hit (keypointHits knnSearch imageId w h kd) ->
  i_angle hit = fixed16 (angle (fst kd)) (F32.of_int 360) /\
  x hit = fixed16 (pt_x (fst kd)) (F32.of_int w) /\
  y hit = fixed16 (pt_y (fst kd)) (F32.of_int h).
Proof.
  unfold keypointHits. intros Hin. apply in_map_iff in Hin.
  destruct Hin as (idx & <- & _). cbn. auto.
Qed.

(** C2, as amended.  For a keypoint with angle in [0, 360) and position
    inside an image that passed the size checks, the stored angle, x and
    y are the integer parts (the conversion to [u_int16_t] truncates; it
    does not round to nearest) of the single-precision products
    [angle / 360 * 65536], [x / width * 65536] and [y / height * 65536];
    they lie in [0, 65535], so nothing is lost to the reduction modulo
    65536. *)
Theorem C2_encodings_are_truncated :
  forall knnSearch imageId w h kd hit,
    200 <= w <= 1000 -> 200 <= h <= 1000 ->
    in_image (fst kd) w h ->
    In hit (keypointHits knnSearch imageId w h kd) ->
    (i_angle hit =
       Qfloor (F32.toQ (scaled16 (angle (fst kd)) (F32.of_int 360))) /\
     0 <= i_angle hit < 65536) /\
    (x hit = Qfloor (F32.toQ (scaled16 (pt_x (fst kd)) (F32.of_int w))) /\
     0 <= x hit < 65536) /\
    (y hit = Qfloor (F32.toQ (scaled16 (pt_y (fst kd)) (F32.of_int h))) /\
     0 <= y hit < 65536).
Proof.
  intros knnSearch imageId w h kd hit Hw Hh (Ha & Hx & Hy) Hin.
  destruct (keypointHits_fields _ _ _ _ _ _ Hin) as (-> & -> & ->).
  destruct (fixed16_extent _ 360 ltac:(lia) Ha) as (Ra & Fa & _).
  destruct (fixed16_extent _ w Hw Hx) as (Rx & Fx & _).
  destruct (fixed16_extent _ h Hh Hy) as (Ry & Fy & _).
  auto.
Qed.

Lemma sample_in_image : in_image Sample.kp13 500 500.
Proof.
  unfold in_image, within, Sample.kp13. cbn [angle pt_x pt_y].
  repeat split; try (vm_compute; reflexivity); vm_compute; discriminate.
Defined.

Lemma C2_witness :
  map i_angle (keypointHits Sample.knn 42 500 500 (Sample.kp13, [])) =
    [2366; 2366; 2366; 2366] /\
  Qfloor (F32.toQ (scaled16 (F32.of_int 13) (F32.of_int 360))) = 2366.
Proof.
  assert (Hin : In (newHit 7 42 2366 1310 1310)
                   (keypointHits Sample.knn 42 500 500 (Sample.kp13, []))).
  { left. vm_compute. reflexivity. }
  destruct (C2_encodings_are_truncated Sample.knn 42 500 500
              (Sample.kp13, []) _ ltac:(lia) ltac:(lia) sample_in_image Hin)
    as ((Ha & _) & _).
  split; [vm_compute; reflexivity|]. symmetry. exact Ha.
Defined.

(** C2 as it is written fails: for a keypoint at (10, 10) turned by 13
    degrees in a 500 x 500 image, [round(13 / 360 * 65536)] is 2367 and
    [round(10 / 500 * 65536)] is 1311, and the hits store 2366 and
    1310. *)
Lemma C2_counterexample_13_degrees :
  in_image Sample.kp13 500 500 /\
  spec_fixed16 (F32.toQ (angle Sample.kp13)) 360 = 2367 /\
  spec_fixed16 (F32.toQ (pt_x Sample.kp13)) 500 = 1311 /\
  spec_fixed16 (F32.toQ (pt_y Sample.kp13)) 500 = 1311 /\
  map (fun hit => (i_angle hit, x hit, y hit))
      (keypointHits Sample.knn 42 500 500 (Sample.kp13, [])) =
    repeat (2366, 1310, 1310) 4.
Proof.
  split; [exact sample_in_image|].
  repeat split; vm_compute; reflexivity.
Qed.

(** C8.  For a keypoint with angle in [0, 360) and position inside an
    image that passed the size checks, the stored angle decoded as
    [angle_fixed / 65536 * 360] is within [360 / 65536] of the angle, and
    the stored x and y decoded against the width and the height are
    within [width / 65536] and [height / 65536] of the position. *)
Theorem C8_decoding_within_one_step :
  forall knnSearch imageId w h kd hit,
    200 <= w <= 1000 -> 200 <= h <= 1000 ->
    in_image (fst kd) w h ->
    In hit (keypointHits knnSearch imageId w h kd) ->
    (Qabs (decode16 (i_angle hit) 360 - F32.toQ (angle (fst kd)))
       <= 360 / 65536)%Q /\
    (Qabs (decode16 (x hit) (inject_Z w) - F32.toQ (pt_x (fst kd)))
       <= inject_Z w / 65536)%Q /\
    (Qabs (decode16 (y hit) (inject_Z h) - F32.toQ (pt_y (fst kd)))
       <= inject_Z h / 65536)%Q.
Proof.
  intros knnSearch imageId w h kd hit Hw Hh (Ha & Hx & Hy) Hin.
  destruct (keypointHits_fields _ _ _ _ _ _ Hin) as (-> & -> & ->).
  destruct (fixed16_extent _ 360 ltac:(lia) Ha) as (_ & _ & Ba).
  destruct (fixed16_extent _ w Hw Hx) as (_ & _ & Bx).
  destruct (fixed16_extent _ h Hh Hy) as (_ & _ & By).
  auto.
Qed.

Lemma C8_witness :
  (Qabs (decode16 2366 360 - 13) <= 360 / 65536)%Q /\
  (Qabs (decode16 1310 500 - 10) <= 500 / 65536)%Q.
Proof.
  assert (Hin : In (newHit 7 42 2366 1310 1310)
                   (keypointHits Sample.knn 42 500 500 (Sample.kp13, []))).
  { left. vm_compute. reflexivity. }
  destruct (C8_decoding_within_one_step Sample.knn 42 500 500
              (Sample.kp13, []) _ ltac:(lia) ltac:(lia) sample_in_image Hin)
    as (Ba & Bx & _).
  split; [exact Ba | exact Bx].
Defined.

(* ================================================================== *)
(** * Further properties of the request *)

(** X1.  Every call of [processNewImage] sends exactly one status code,
    and it returns [true] exactly when that code is [OK]. *)
Theorem X1_exactly_one_reply :
  forall order imdecode SIFT knnSearch imageId imgData can_open dev,
    let run := processNewImage order imdecode SIFT knnSearch
                 imageId imgData can_open dev in
    exists r, replies run = [r] /\ (ret run = true <-> r = OK).
Proof.
  intros order imdecode SIFT knnSearch imageId imgData can_open dev run.
  subst run. unfold processNewImage.
  destruct (imdecode imgData) as [|img];
    [exists IMAGE_NOT_DECODED; cbn; split; [reflexivity | split; discriminate]|].
  destruct (negb (data img));
    [exists IMAGE_NOT_DECODED; cbn; split; [reflexivity | split; discriminate]|].
  destruct (_ || _);
    [exists IMAGE_SIZE_TOO_BIG; cbn; split; [reflexivity | split; discriminate]|].
  destruct (_ || _);
    [exists IMAGE_SIZE_TOO_SMALL; cbn; split; [reflexivity | split; discriminate]|].
  destruct (openHitFile can_open dev imageId) as [opened ofs].
  destruct (negb opened);
    [exists ERROR_GENERIC; cbn; split; [reflexivity | split; discriminate]|].
  destruct (quantize _ _ _ _ _ _ _) as [[[ok ofs'] qs] hs].
  destruct ok; cbn.
  - exists OK. split; [reflexivity | split; reflexivity].
  - exists ERROR_GENERIC. split; [reflexivity | split; discriminate].
Qed.

(** X2.  When the image is decoded and passes the size checks but the
    hit file cannot be opened, the request answers [ERROR_GENERIC],
    returns [false], leaves the stream closed without a byte written,
    and neither queries the index nor produces a hit. *)
Theorem X2_hit_file_not_opened :
  forall order imdecode SIFT knnSearch imageId imgData dev img,
    imdecode imgData = Decoded img ->
    data img = true ->
    200 <= to_u32 (cols img) <= 1000 ->
    200 <= to_u32 (rows img) <= 1000 ->
    processNewImage order imdecode SIFT knnSearch imageId imgData false dev =
      {| ret := false; replies := [ERROR_GENERIC];
         file := Some {| ofs_path := hitFileName imageId;
                         ofs_is_open := false; ofs_good := false;
                         ofs_data := []; ofs_device := dev |};
         queries := []; hits := [] |}.
Proof.
  intros order imdecode SIFT knnSearch imageId imgData dev img
         Hdec Hdata Hw Hh.
  unfold processNewImage. rewrite Hdec, Hdata. cbn [negb].
  replace (1000 <? to_u32 (cols img)) with false
    by (symmetry; apply Z.ltb_ge; lia).
  replace (1000 <? to_u32 (rows img)) with false
    by (symmetry; apply Z.ltb_ge; lia).
  replace (to_u32 (cols img) <? 200) with false
    by (symmetry; apply Z.ltb_ge; lia).
  replace (to_u32 (rows img) <? 200) with false
    by (symmetry; apply Z.ltb_ge; lia).
  reflexivity.
Qed.

Lemma X2_witness :
  replies (processNewImage LittleEndian Sample.decode Sample.detect
             Sample.knn 42 [] false []) = [ERROR_GENERIC].
Proof.
  rewrite (X2_hit_file_not_opened LittleEndian Sample.decode Sample.detect
             Sample.knn 42 [] [] Sample.img eq_refl eq_refl).
  - reflexivity.
  - vm_compute. split; discriminate.
  - vm_compute. split; discriminate.
Defined.

Lemma ofs_write_cases bs s :
  (ofs_good (ofs_write bs s) = true /\ ofs_good s = true /\
   ofs_data (ofs_write bs s) = ofs_data s ++ bs) \/
  (ofs_good (ofs_write bs s) = false /\
   ofs_data (ofs_write bs s) = ofs_data s).
Proof.
  unfold ofs_write. destruct (ofs_good s) eqn:G.
  - destruct (ofs_device s) as [|[|] dev]; cbn; auto.
  - right. auto.
Qed.

(** What one call of [writeHit] does to the stream. *)
Lemma writeHit_cases bo s hit :
  fst (writeHit bo s hit) = ofs_good s /\
  (ofs_good s = false -> snd (writeHit bo s hit) = s) /\
  exists part rest,
    ofs_data (snd (writeHit bo s hit)) = ofs_data s ++ part /\
    part ++ rest = hitBytes bo hit /\
    (ofs_good (snd (writeHit bo s hit)) = true -> rest = []).
Proof.
  unfold writeHit. destruct (ofs_good s) eqn:G; cbn [negb fst snd].
  2:{ repeat split; auto. exists [], (hitBytes bo hit).
      rewrite app_nil_r. repeat split. rewrite G. discriminate. }
  split; [reflexivity|]. split; [discriminate|].
  set (f1 := native_bytes bo 4 (i_wordId hit)).
  set (f2 := native_bytes bo 4 (Hit.i_imageId hit)).
  set (f3 := native_bytes bo 2 (i_angle hit)).
  set (f4 := native_bytes bo 2 (x hit)).
  set (f5 := native_bytes bo 2 (y hit)).
  assert (HB : hitBytes bo hit = f1 ++ f2 ++ f3 ++ f4 ++ f5) by reflexivity.
  pose proof (ofs_write_cases f1 s) as C1. set (s1 := ofs_write f1 s) in *.
  pose proof (ofs_write_cases f2 s1) as C2. set (s2 := ofs_write f2 s1) in *.
  pose proof (ofs_write_cases f3 s2) as C3. set (s3 := ofs_write f3 s2) in *.
  pose proof (ofs_write_cases f4 s3) as C4. set (s4 := ofs_write f4 s3) in *.
  pose proof (ofs_write_cases f5 s4) as C5. set (s5 := ofs_write f5 s4) in *.
  clearbody s5. clearbody s4. clearbody s3. clearbody s2. clearbody s1.
  destruct C1 as [(G1 & _ & D1) | (G1 & D1)];
  destruct C2 as [(G2 & G1' & D2) | (G2 & D2)];
  destruct C3 as [(G3 & G2' & D3) | (G3 & D3)];
  destruct C4 as [(G4 & G3' & D4) | (G4 & D4)];
  destruct C5 as [(G5 & G4' & D5) | (G5 & D5)];
  try congruence;
  rewrite D5, D4, D3, D2, D1, HB.
  - exists (f1 ++ f2 ++ f3 ++ f4 ++ f5), [].
    rewrite <- !app_assoc, app_nil_r. auto.
  - exists (f1 ++ f2 ++ f3 ++ f4), f5.
    rewrite <- !app_assoc. repeat split. congruence.
  - exists (f1 ++ f2 ++ f3), (f4 ++ f5).
    rewrite <- !app_assoc. repeat split. congruence.
  - exists (f1 ++ f2), (f3 ++ f4 ++ f5).
    rewrite <- !app_assoc. repeat split. congruence.
  - exists f1, (f2 ++ f3 ++ f4 ++ f5). repeat split. congruence.
  - exists [], (f1 ++ f2 ++ f3 ++ f4 ++ f5).
    rewrite app_nil_r. repeat split. congruence.
Qed.

(** X4.  [writeHit] returns [true] exactly when the stream was good
    before the call, whatever becomes of its own five writes; on a
    stream that is not good it changes nothing; and it never touches
    what the file already holds: the file after the call starts with the
    file before it. *)
Theorem X4_writeHit_tests_before_writing :
  forall order ofs hit,
    fst (writeHit order ofs hit) = ofs_good ofs /\
    (ofs_good ofs = false -> snd (writeHit order ofs hit) = ofs) /\
    exists added,
      ofs_data (snd (writeHit order ofs hit)) = ofs_data ofs ++ added.
Proof.
  intros order ofs hit.
  destruct (writeHit_cases order ofs hit)
    as (Hf & Hb & part & rest & Hd & _ & _).
  split; [exact Hf|]. split; [exact Hb|]. exists part. exact Hd.
Qed.







(** ** The name of the hit file *)

Lemma string_length_append (a b : string) :
  String.length (a ++ b) = (String.length a + String.length b)%nat.
Proof. induction a as [|c a IH]; cbn; [reflexivity | now rewrite IH]. Qed.

Lemma string_append_inj_l (s : string) : forall a b : string,
  (a ++ s)%string = (b ++ s)%string -> a = b.
Proof.
  induction a as [|c a IH]; intros [|c' b] H; cbn in H.
  - reflexivity.
  - apply (f_equal String.length) in H. cbn in H.
    rewrite string_length_append in H. lia.
  - apply (f_equal String.length) in H. cbn in H.
    rewrite string_length_append in H. lia.
  - inversion H; subst. f_equal. now apply IH.
Qed.

Lemma to_uint_not_nil n : N.to_uint n <> Decimal.Nil.
Proof.
  intros H. pose proof (DecimalN.Unsigned.of_to n) as E.
  rewrite H in E. cbn in E. subst n. discriminate H.
Qed.

Lemma decimal_inj i j : 0 <= i -> 0 <= j -> decimal i = decimal j -> i = j.
Proof.
  unfold decimal. intros Hi Hj H.
  assert (E : Some (N.to_uint (Z.to_N i)) = Some (N.to_uint (Z.to_N j))).
  { rewrite <- (NilZero.usu _ (to_uint_not_nil (Z.to_N i))).
    rewrite <- (NilZero.usu _ (to_uint_not_nil (Z.to_N j))).
    now rewrite H. }
  inversion E as [E']. apply DecimalN.Unsigned.to_uint_inj in E'. lia.
Qed.

(** X5.  Two different image identifiers never share a hit file: the
    name [imageHits/<id>.dat] determines the identifier. *)
Theorem X5_hit_file_name_identifies_image :
  forall i j,
    0 <= i -> 0 <= j -> i <> j -> hitFileName i <> hitFileName j.
Proof.
  intros i j Hi Hj Hne H. apply Hne. unfold hitFileName in H.
  cbn in H. inversion H as [H']. apply string_append_inj_l in H'.
  now apply decimal_inj.
Qed.

Lemma X5_witness : hitFileName 42 <> hitFileName 420.
Proof.
  apply X5_hit_file_name_identifies_image; lia.
Defined.

(** ** Reading a hit file back *)

Lemma le_value_bytes v n : forall k,
  le_value (map (fun i => Z.land (Z.shiftr v (8 * Z.of_nat i)) 255) (seq k n))
  = Z.shiftr v (8 * Z.of_nat k) mod 2 ^ (8 * Z.of_nat n).
Proof.
  induction n as [|n IH]; intros k.
  - cbn. now rewrite Z.mod_1_r.
  - cbn [seq map le_value fold_right]. fold (le_value
      (map (fun i => Z.land (Z.shiftr v (8 * Z.of_nat i)) 255) (seq (S k) n))).
    rewrite IH.
    set (u := Z.shiftr v (8 * Z.of_nat k)).
    replace (Z.shiftr v (8 * Z.of_nat (S k))) with (u / 2 ^ 8).
    2:{ subst u. rewrite <- Z.shiftr_div_pow2, Z.shiftr_shiftr by lia.
        f_equal. lia. }
    change 255 with (Z.ones 8). rewrite Z.land_ones by lia.
    replace (8 * Z.of_nat (S n)) with (8 + 8 * Z.of_nat n) by lia.
    rewrite Z.pow_add_r by lia.
    rewrite Z.rem_mul_r; [reflexivity | lia | apply Z.pow_pos_nonneg; lia].
Qed.

Lemma native_value_bytes bo n v :
  native_value bo (native_bytes bo n v) = v mod 2 ^ (8 * Z.of_nat n).
Proof.
  assert (H : le_value (le_bytes n v) = v mod 2 ^ (8 * Z.of_nat n)).
  { unfold le_bytes. rewrite le_value_bytes. now rewrite Z.shiftr_0_r. }
  destruct bo; cbn [native_value native_bytes]; [exact H|].
  now rewrite rev_involutive.
Qed.

Lemma firstn_app_exact {A} n (a b : list A) :
  length a = n -> firstn n (a ++ b) = a.
Proof.
  intros <-. rewrite firstn_app, Nat.sub_diag, firstn_all, firstn_O.
  apply app_nil_r.
Qed.

Lemma skipn_app_exact {A} n (a b : list A) :
  length a = n -> skipn n (a ++ b) = b.
Proof.
  intros <-. rewrite skipn_app, Nat.sub_diag, skipn_all, skipn_O.
  reflexivity.
Qed.

Lemma parseHit_hitBytes bo hit rest :
  fits_record hit -> parseHit bo (hitBytes bo hit ++ rest) = hit.
Proof.
  intros (H1 & H2 & H3 & H4 & H5). destruct hit as [wd im an px py].
  cbn [i_wordId Hit.i_imageId i_angle x y] in *.
  unfold parseHit, hitBytes. cbn [i_wordId Hit.i_imageId i_angle x y].
  set (f1 := native_bytes bo 4 wd). set (f2 := native_bytes bo 4 im).
  set (f3 := native_bytes bo 2 an). set (f4 := native_bytes bo 2 px).
  set (f5 := native_bytes bo 2 py).
  assert (L1 : length f1 = 4%nat) by apply native_bytes_length.
  assert (L2 : length f2 = 4%nat) by apply native_bytes_length.
  assert (L3 : length f3 = 2%nat) by apply native_bytes_length.
  assert (L4 : length f4 = 2%nat) by apply native_bytes_length.
  assert (L5 : length f5 = 2%nat) by apply native_bytes_length.
  rewrite <- !app_assoc.
  rewrite (firstn_app_exact 4 f1) by exact L1.
  rewrite (skipn_app_exact 4 f1) by exact L1.
  rewrite (firstn_app_exact 4 f2) by exact L2.
  replace (f1 ++ f2 ++ f3 ++ f4 ++ f5 ++ rest)
    with ((f1 ++ f2) ++ f3 ++ f4 ++ f5 ++ rest) by now rewrite <- app_assoc.
  rewrite (skipn_app_exact 8 (f1 ++ f2)) by (rewrite length_app; lia).
  rewrite (firstn_app_exact 2 f3) by exact L3.
  replace ((f1 ++ f2) ++ f3 ++ f4 ++ f5 ++ rest)
    with ((f1 ++ f2 ++ f3) ++ f4 ++ f5 ++ rest) by now rewrite <- !app_assoc.
  rewrite (skipn_app_exact 10 (f1 ++ f2 ++ f3)) by (rewrite !length_app; lia).
  rewrite (firstn_app_exact 2 f4) by exact L4.
  replace ((f1 ++ f2 ++ f3) ++ f4 ++ f5 ++ rest)
    with ((f1 ++ f2 ++ f3 ++ f4) ++ f5 ++ rest) by now rewrite <- !app_assoc.
  rewrite (skipn_app_exact 12 (f1 ++ f2 ++ f3 ++ f4))
    by (rewrite !length_app; lia).
  rewrite (firstn_app_exact 2 f5) by exact L5.
  subst f1 f2 f3 f4 f5. rewrite !native_value_bytes.
  change (8 * Z.of_nat 4) with 32. change (8 * Z.of_nat 2) with 16.
  rewrite !Z.mod_small by assumption. reflexivity.
Qed.

Lemma parseHits_records bo hs :
  Forall fits_record hs ->
  parseHits bo (length hs) (concat (map (hitBytes bo) hs)) = hs.
Proof.
  induction 1 as [|hit hs Hfit _ IH]; [reflexivity|].
  cbn [map concat length parseHits].
  rewrite (firstn_app_exact 14) by apply hitBytes_length.
  rewrite (skipn_app_exact 14) by apply hitBytes_length.
  rewrite IH. f_equal.
  rewrite <- (app_nil_r (hitBytes bo hit)). now apply parseHit_hitBytes.
Qed.

Lemma fixed16_range v d : 0 <= fixed16 v d < 2 ^ 16.
Proof.
  unfold fixed16, F32.to_uint16.
  destruct (_ && _); [|lia]. unfold to_u16. apply Z.mod_pos_bound. lia.
Qed.

Lemma keypointHits_fit knnSearch imageId w h kd :
  0 <= imageId < 2 ^ 32 ->
  Forall fits_record (keypointHits knnSearch imageId w h kd).
Proof.
  intros Hid. unfold keypointHits. apply Forall_forall. intros hit Hin.
  apply in_map_iff in Hin. destruct Hin as (idx & <- & _).
  unfold fits_record, newHit. cbn [i_wordId Hit.i_imageId i_angle x y].
  repeat split; try apply fixed16_range; try lia;
    unfold to_u32; apply Z.mod_pos_bound; lia.
Qed.

(** X6.  What a request wrote can be read back: on a device that accepts
    the writes, the file of a request that ends with success, cut into
    records of 14 bytes and decoded field by field, gives exactly the
    hits of the request, in their order. *)
Theorem X6_hit_file_reads_back :
  forall order imdecode SIFT knnSearch imageId imgData dev,
    0 <= imageId < 2 ^ 32 ->
    Forall (fun b => b = true) dev ->
    let run := processNewImage order imdecode SIFT knnSearch
                 imageId imgData true dev in
    ret run = true ->
    exists ofs,
      file run = Some ofs /\
      parseHits order (length (hits run)) (ofs_data ofs) = hits run.
Proof.
  intros order imdecode SIFT knnSearch imageId imgData dev Hid Hdev run.
  subst run. unfold processNewImage.
  destruct (imdecode imgData) as [|img]; [discriminate|].
  destruct (negb (data img)); [discriminate|].
  destruct (_ || _); [discriminate|].
  destruct (_ || _); [discriminate|].
  unfold openHitFile, ofs_open. cbv zeta. cbn [ofs_good negb].
  set (ofs0 := {| ofs_path := hitFileName imageId; ofs_is_open := true;
                  ofs_good := true; ofs_data := []; ofs_device := dev |}).
  assert (H0 : healthy ofs0) by (split; [reflexivity | exact Hdev]).
  destruct (quantize_healthy order knnSearch imageId
              (to_u32 (cols img)) (to_u32 (rows img)) (SIFT img) ofs0 H0)
    as (ofs' & qs & E & _ & D).
  rewrite E. cbn. intros _. eexists. split; [reflexivity|].
  cbn [ofs_close ofs_data]. rewrite D. cbn [ofs_data ofs0 app].
  apply parseHits_records.
  rewrite flat_map_concat_map. apply Forall_concat, Forall_map.
  apply Forall_forall. intros kd _. now apply keypointHits_fit.
Qed.

Lemma X6_witness :
  exists ofs,
    file (Sample.run []) = Some ofs /\
    parseHits LittleEndian (length (hits (Sample.run []))) (ofs_data ofs) =
      hits (Sample.run []).
Proof.
  refine (X6_hit_file_reads_back LittleEndian Sample.decode Sample.detect
            Sample.knn 42 [] [] _ _ _).
  - lia.
  - constructor.
  - vm_compute. reflexivity.
Defined.

Lemma flat_map_length_const {A B} (f : A -> list B) n l :
  (forall a, length (f a) = n) ->
  length (flat_map f l) = (n * length l)%nat.
Proof.
  intros H. induction l as [|a l IH]; cbn [flat_map length]; [lia|].
  rewrite length_app, H, IH. lia.
Qed.

(** X12.  With an index that returns 4 neighbours per query and a device
    that accepts the writes, the hit file of a request that ends with
    success has exactly 56 bytes for every keypoint that SIFT found; an
    image without keypoints leaves an empty file. *)
Theorem X12_file_size_56_bytes_per_keypoint :
  forall order imdecode SIFT knnSearch imageId imgData dev img,
    (forall d, length (knnSearch d 4) = 4%nat) ->
    Forall (fun b => b = true) dev ->
    imdecode imgData = Decoded img ->
    let run := processNewImage order imdecode SIFT knnSearch
                 imageId imgData true dev in
    ret run = true ->
    exists ofs,
      file run = Some ofs /\
      ofs_good ofs = true /\
      Z.of_nat (length (ofs_data ofs)) = 56 * Z.of_nat (length (SIFT img)).
Proof.
  intros order imdecode SIFT knnSearch imageId imgData dev img
         Hlen Hdev Hdec run.
  subst run. unfold processNewImage. rewrite Hdec.
  destruct (negb (data img)); [discriminate|].
  destruct (_ || _); [discriminate|].
  destruct (_ || _); [discriminate|].
  unfold openHitFile, ofs_open. cbv zeta. cbn [ofs_good negb].
  set (ofs0 := {| ofs_path := hitFileName imageId; ofs_is_open := true;
                  ofs_good := true; ofs_data := []; ofs_device := dev |}).
  assert (H0 : healthy ofs0) by (split; [reflexivity | exact Hdev]).
  destruct (quantize_healthy order knnSearch imageId
              (to_u32 (cols img)) (to_u32 (rows img)) (SIFT img) ofs0 H0)
    as (ofs' & qs & E & Hh & D).
  rewrite E. cbn. intros _. eexists. split; [reflexivity|].
  cbn [ofs_close ofs_data ofs_good]. split; [apply Hh|].
  rewrite D. cbn [ofs_data ofs0 app].
  rewrite concat_hitBytes_length.
  rewrite (flat_map_length_const _ 4%nat).
  - rewrite Nat2Z.inj_mul. change (Z.of_nat 4) with 4.
    rewrite Z.mul_assoc. reflexivity.
  - intros kd. unfold keypointHits. rewrite length_map. apply Hlen.
Qed.

Lemma X12_witness :
  exists ofs,
    file (Sample.run []) = Some ofs /\
    ofs_good ofs = true /\
    Z.of_nat (length (ofs_data ofs)) = 56 * 1.
Proof.
  refine (X12_file_size_56_bytes_per_keypoint LittleEndian Sample.decode
            Sample.detect Sample.knn 42 [] [] Sample.img _ _ eq_refl _).
  - reflexivity.
  - constructor.
  - vm_compute. reflexivity.
Defined.

(* ================================================================== *)
(** * Further properties of the vocabulary loader *)

Lemma Framed_frames records :
  Forall (fun r => length (fst r) = 512%nat /\ after_newline (snd r) = None)
         records ->
  Framed (concat (map frame records))
         (map (fun r => chunks4 128 (fst r)) records).
Proof.
  induction 1 as [|r records [Hr Hd] _ IH]; cbn [map concat].
  - apply Framed_short. cbn. lia.
  - unfold frame at 1. rewrite <- !app_assoc. cbn [app].
    now apply Framed_record.
Qed.

(** X7.  A file made of [n] records of 512 bytes, each followed by a
    delimiter without newline and then a newline, loads as exactly [n]
    rows, the four-byte groups of the records in the order of the file,
    appended to the rows already there. *)
Theorem X7_whole_records_all_load :
  forall records c words,
    Forall (fun r => length (fst r) = 512%nat /\ after_newline (snd r) = None)
           records ->
    readVisualWords (Some (concat (map frame records))) c words =
      Some (true, words ++ map (fun r => chunks4 128 (fst r)) records).
Proof.
  intros records c words H.
  unfold readVisualWords. cbn [ifs_open ifs_good ifs_rest negb].
  rewrite (readRecords_framed _ _ (Framed_frames records H)) by lia.
  reflexivity.
Qed.

Lemma X7_witness :
  readVisualWords
    (Some (concat (map frame [(LoaderSample.rec, [13]); (LoaderSample.rec, [])])))
    [0; 0; 0; 0] [] =
  Some (true, [chunks4 128 LoaderSample.rec; chunks4 128 LoaderSample.rec]).
Proof.
  refine (X7_whole_records_all_load
            [(LoaderSample.rec, [13]); (LoaderSample.rec, [])] [0; 0; 0; 0] [] _).
  repeat constructor.
Defined.

Lemma Framed_length bs rows :
  Framed bs rows -> (513 * length rows <= length bs + 1)%nat.
Proof.
  induction 1 as [bs Hs | rec delim Hr Hd | rec delim rest rows Hr Hd HF IH];
    cbn [length]; rewrite ?length_app; cbn [length]; try rewrite length_app;
    cbn [length]; lia.
Qed.

(** X8.  Every row costs at least 512 bytes of the file and every row
    but the last one more for its newline: a file of [len] bytes loads
    at most [(len + 1) / 513] rows.  So [init] reaches the index only
    with a vocabulary file of at least 512,999,999 bytes. *)
Theorem X8_rows_bounded_by_file_size :
  forall bs c,
    exists rows,
      readVisualWords (Some bs) c [] = Some (true, rows) /\
      513 * Z.of_nat (length rows) <= Z.of_nat (length bs) + 1 /\
      (forall ws, init (Some bs) c = Some (IndexLoaded ws) ->
                  512999999 <= Z.of_nat (length bs)).
Proof.
  intros bs c. destruct (Framed_total bs) as [rows HF].
  assert (HR : readVisualWords (Some bs) c [] = Some (true, rows)).
  { unfold readVisualWords. cbn [ifs_open ifs_good ifs_rest negb].
    rewrite (readRecords_framed bs rows HF) by lia. reflexivity. }
  pose proof (Framed_length bs rows HF) as HL.
  exists rows. split; [exact HR|]. split; [lia|].
  intros ws. unfold init. rewrite HR.
  destruct (Z.of_nat (length rows) =? 1000000) eqn:E; [|discriminate].
  apply Z.eqb_eq in E. intros _. lia.
Qed.

Lemma loader_returns bs c words :
  exists rows,
    Framed bs rows /\
    readVisualWords (Some bs) c words = Some (true, words ++ rows).
Proof.
  destruct (Framed_total bs) as [rows HF]. exists rows. split; [exact HF|].
  unfold readVisualWords. cbn [ifs_open ifs_good ifs_rest negb].
  rewrite (readRecords_framed bs rows HF) by lia. reflexivity.
Qed.

(** X9.  [init] ends in [exit(1)] exactly when the vocabulary file cannot
    be opened; a file that opens never makes it exit: it ends in the
    failed assertion or goes on to the index. *)
Theorem X9_exit_only_when_file_unopenable :
  forall file c code,
    init file c = Some (Exited code) <-> (file = None /\ code = 1).
Proof.
  intros [bs|] c code; split.
  - destruct (loader_returns bs c []) as (rows & _ & HR).
    unfold init. rewrite HR. destruct (_ =? _); discriminate.
  - intros [H _]. discriminate.
  - cbn. intros H. inversion H. auto.
  - intros [_ ->]. reflexivity.
Qed.

Lemma Framed_prepend records rest rows :
  Forall (fun r => length (fst r) = 512%nat /\ after_newline (snd r) = None)
         records ->
  Framed rest rows ->
  Framed (concat (map frame records) ++ rest)
         (map (chunks4 128) (map fst records) ++ rows).
Proof.
  intros H HF. induction H as [|r records [Hr Hd] _ IH]; cbn [map concat app].
  - exact HF.
  - unfold frame at 1. rewrite <- !app_assoc. cbn [app].
    now apply Framed_record.
Qed.

Lemma loads_framed bs rows c words :
  Framed bs rows ->
  readVisualWords (Some bs) c words = Some (true, words ++ rows).
Proof.
  intros HF. unfold readVisualWords. cbn [ifs_open ifs_good ifs_rest negb].
  rewrite (readRecords_framed bs rows HF) by lia. reflexivity.
Qed.

(** X10.  The bytes between the end of a record and the next newline are
    skipped without being looked at, after whichever record they come:
    two files that hold the same records, each followed by some
    delimiter and a newline, and then the same remainder, load the same
    rows whatever the delimiters are; and so do two files that differ in
    the delimiter that follows their last record up to the end of the
    file. *)
Theorem X10_delimiter_content_ignored :
  forall records records' rest c words,
    Forall (fun r => length (fst r) = 512%nat /\ after_newline (snd r) = None)
           records ->
    Forall (fun r => length (fst r) = 512%nat /\ after_newline (snd r) = None)
           records' ->
    map fst records = map fst records' ->
    readVisualWords (Some (concat (map frame records) ++ rest)) c words =
    readVisualWords (Some (concat (map frame records') ++ rest)) c words /\
    forall rec delim delim',
      length rec = 512%nat ->
      after_newline delim = None ->
      after_newline delim' = None ->
      readVisualWords (Some (concat (map frame records) ++ rec ++ delim))
        c words =
      readVisualWords (Some (concat (map frame records') ++ rec ++ delim'))
        c words.
Proof.
  intros records records' rest c words H H' E. split.
  - destruct (Framed_total rest) as [rows HF].
    rewrite (loads_framed _ _ c words (Framed_prepend records rest rows H HF)).
    rewrite (loads_framed _ _ c words (Framed_prepend records' rest rows H' HF)).
    now rewrite E.
  - intros rec delim delim' Hr Hd Hd'.
    rewrite (loads_framed _ _ c words
               (Framed_prepend records _ _ H (Framed_last rec delim Hr Hd))).
    rewrite (loads_framed _ _ c words
               (Framed_prepend records' _ _ H' (Framed_last rec delim' Hr Hd'))).
    now rewrite E.
Qed.

Lemma X10_witness :
  readVisualWords
    (Some (concat (map frame [(LoaderSample.rec, [13]); (LoaderSample.rec, [])])
           ++ LoaderSample.partial)) [0; 0; 0; 0] [] =
  readVisualWords
    (Some (concat (map frame [(LoaderSample.rec, []); (LoaderSample.rec, [1; 2])])
           ++ LoaderSample.partial)) [0; 0; 0; 0] [].
Proof.
  refine (proj1 (X10_delimiter_content_ignored
            [(LoaderSample.rec, [13]); (LoaderSample.rec, [])]
            [(LoaderSample.rec, []); (LoaderSample.rec, [1; 2])]
            LoaderSample.partial [0; 0; 0; 0] [] _ _ _)).
  - repeat constructor.
  - repeat constructor.
  - reflexivity.
Defined.

(** X11.  The local [float c] of [readVisualWords] is read before it is
    ever written only on a path that throws the line away: its initial
    content never reaches the vocabulary, whatever the file. *)
Theorem X11_uninitialised_float_never_loaded :
  forall file c c' words,
    readVisualWords file c words = readVisualWords file c' words.
Proof.
  intros [bs|] c c' words; [|reflexivity].
  destruct (Framed_total bs) as [rows HF].
  unfold readVisualWords. cbn [ifs_open ifs_good ifs_rest negb].
  now rewrite !(readRecords_framed bs rows HF) by lia.
Qed.

(* ================================================================== *)
(** * A sharper account of the encoding *)

Lemma fixed16_floor v full :
  200 <= full <= 1000 ->
  within v full ->
  Qfloor (65536 * F32.toQ v / inject_Z full)
    <= fixed16 v (F32.of_int full)
    <= Qfloor (65536 * F32.toQ v / inject_Z full) + 1.
Proof.
  intros Hfull (Vv & Fv & H0 & Hlt).
  destruct (of_int_extent full Hfull) as (Vd & Fd & Ed).
  rewrite <- Ed in Hlt.
  destruct (fixed16_bounds v (F32.of_int full) Vv Vd Fv Fd H0 Hlt)
    as (_ & _ & Hlo & Hhi).
  rewrite Ed in Hlo, Hhi.
  set (n := fixed16 v (F32.of_int full)) in *.
  set (X := (65536 * F32.toQ v / inject_Z full)%Q).
  assert (Hpos : (0 < inject_Z full)%Q).
  { unfold Qlt, inject_Z. cbn. lia. }
  assert (E1 : (inject_Z n - 1 == inject_Z (n - 1))%Q).
  { unfold Qminus, Qplus, Qopp, Qeq, inject_Z. cbn. lia. }
  assert (E2 : (inject_Z n + 1 == inject_Z (n + 1))%Q).
  { unfold Qplus, Qeq, inject_Z. cbn. lia. }
  assert (L : (inject_Z (n - 1) <= X)%Q).
  { rewrite <- E1. apply Qle_shift_div_l; assumption. }
  assert (U : (X < inject_Z (n + 1))%Q).
  { rewrite <- E2. apply Qlt_shift_div_r; assumption. }
  split.
  - assert (Hf : (inject_Z (Qfloor X) < inject_Z (n + 1))%Q).
    { eapply Qle_lt_trans; [apply Qfloor_le | exact U]. }
    rewrite <- Zlt_Qlt in Hf. lia.
  - apply Qfloor_resp_le in L. rewrite Qfloor_Z in L. lia.
Qed.

(** X13.  For a keypoint with angle in [0, 360) and position inside an
    image that passed the size checks, each stored encoding is the
    integer part of the exact value [65536 * v / extent] or that integer
    plus one (the single-precision quotient may have been rounded up
    across an integer); it is never below it and never further above. *)
Theorem X13_stored_is_exact_floor_or_next :
  forall knnSearch imageId w h kd hit,
    200 <= w <= 1000 -> 200 <= h <= 1000 ->
    in_image (fst kd) w h ->
    In hit (keypointHits knnSearch imageId w h kd) ->
    (Qfloor (65536 * F32.toQ (angle (fst kd)) / 360) <= i_angle hit
       <= Qfloor (65536 * F32.toQ (angle (fst kd)) / 360) + 1) /\
    (Qfloor (65536 * F32.toQ (pt_x (fst kd)) / inject_Z w) <= x hit
       <= Qfloor (65536 * F32.toQ (pt_x (fst kd)) / inject_Z w) + 1) /\
    (Qfloor (65536 * F32.toQ (pt_y (fst kd)) / inject_Z h) <= y hit
       <= Qfloor (65536 * F32.toQ (pt_y (fst kd)) / inject_Z h) + 1).
Proof.
  intros knnSearch imageId w h kd hit Hw Hh (Ha & Hx & Hy) Hin.
  destruct (keypointHits_fields _ _ _ _ _ _ Hin) as (-> & -> & ->).
  pose proof (fixed16_floor _ 360 ltac:(lia) Ha) as Fa.
  pose proof (fixed16_floor _ w Hw Hx) as Fx.
  pose proof (fixed16_floor _ h Hh Hy) as Fy.
  auto.
Qed.

Lemma X13_witness :
  Qfloor (65536 * 13 / 360) <= 2366 <= Qfloor (65536 * 13 / 360) + 1.
Proof.
  assert (Hin : In (newHit 7 42 2366 1310 1310)
                   (keypointHits Sample.knn 42 500 500 (Sample.kp13, []))).
  { left. vm_compute. reflexivity. }
  destruct (X13_stored_is_exact_floor_or_next Sample.knn 42 500 500
              (Sample.kp13, []) _ ltac:(lia) ltac:(lia) sample_in_image Hin)
    as (Fa & _).
  exact Fa.
Defined.
